(** * Move selection of the battlesnake handler (lambdafunction.py)

    A shallow embedding of the decision core of [lambdafunction.py]:
    [get_safe_moves], [is_risky_head_collision], [find_nearest_food],
    [get_move_toward_target], [evaluate_move_space] and [choose_best_move].

    Python integers are [Z]; the JSON objects of the request are records;
    the Python sets of coordinate tuples are [gset (Z * Z)]; lists keep
    their order.  A Python exception is [None] in the [option] monad.
    The [print] calls are trace output only and are left out. *)

From Stdlib Require Import ZArith Lia.
From stdpp Require Import base option list gmap sets fin_sets strings relations.

Local Open Scope Z_scope.

#[local] Set Warnings "-clear-no-such-hyp".

(** ** Data model: the request body *)

(** A JSON object with the keys x and y. *)
Record Point := mkPoint { px : Z; py : Z }.

(** An entry of board.snakes, and the shape of you. *)
Record Snake := mkSnake {
  snake_id : string;
  snake_body : list Point;
  snake_head : Point;
  snake_health : Z
}.

Record Board := mkBoard {
  board_width : Z;
  board_height : Z;
  board_food : list Point;
  board_snakes : list Snake
}.

(** The decoded body of a move request. *)
Record Body := mkBody {
  body_board : Board;
  body_you : Snake
}.

(** A cell as the code stores it in its sets: the tuple (x, y). *)
Abbreviation Cell := (Z * Z)%type.

Definition cell_of (p : Point) : Cell := (px p, py p).

(** Elements of [safe_moves]: (move, nx, ny). *)
Definition SafeMove : Type := string * Z * Z.

(** Elements of [move_scores]: (move, nx, ny, space). *)
Definition ScoredMove : Type := string * Z * Z * Z.

Definition sm_name (m : ScoredMove) : string := m.1.1.1.
Definition sm_x (m : ScoredMove) : Z := m.1.1.2.
Definition sm_y (m : ScoredMove) : Z := m.1.2.
Definition sm_space (m : ScoredMove) : Z := m.2.

(** ** evaluate_move_space *)

Definition max_iterations : Z := 50.

(** The state of the flood fill: visited set, queue, cells counted. *)
Record Fill := mkFill {
  visited : gset Cell;
  queue : list Cell;
  space : Z
}.

(** The offsets tried around a dequeued cell, in the code's order. *)
Definition offsets : list Cell := [(0, 1); (0, -1); (1, 0); (-1, 0)].

(** One turn of the inner [for dx, dy in ...] loop. *)
Definition visit_neighbour (board_width board_height : Z)
    (obstacles : gset Cell) (c : Cell) (vq : gset Cell * list Cell)
    (d : Cell) : gset Cell * list Cell :=
  let new_x := c.1 + d.1 in
  let new_y := c.2 + d.2 in
  if bool_decide (0 ≤ new_x < board_width)
     && bool_decide (0 ≤ new_y < board_height)
     && bool_decide ((new_x, new_y) ∉ vq.1)
     && bool_decide ((new_x, new_y) ∉ obstacles)
  then ({[ (new_x, new_y) ]} ∪ vq.1, vq.2 ++ [(new_x, new_y)])
  else vq.

(** The body of the [while] loop: pop the front of the queue, count it,
    and sweep its four neighbours. *)
Definition fill_step (board_width board_height : Z)
    (obstacles : gset Cell) (c : Cell) (rest : list Cell) (st : Fill) : Fill :=
  let vq := foldl (visit_neighbour board_width board_height obstacles c)
                  (visited st, rest) offsets in
  mkFill vq.1 vq.2 (space st + 1).

(** [while queue and space < max_iterations], with fuel for the number
    of turns; [None] when the fuel runs out before the loop exits. *)
Fixpoint fill_loop (fuel : nat) (board_width board_height : Z)
    (obstacles : gset Cell) (st : Fill) : option Z :=
  match queue st with
  | [] => Some (space st)
  | c :: rest =>
      if bool_decide (space st < max_iterations) then
        match fuel with
        | O => None
        | S fuel' =>
            fill_loop fuel' board_width board_height obstacles
              (fill_step board_width board_height obstacles c rest st)
        end
      else Some (space st)
  end.

Definition evaluate_move_space (nx ny board_width board_height : Z)
    (obstacles : gset Cell) : option Z :=
  fill_loop (Z.to_nat max_iterations) board_width board_height obstacles
    (mkFill {[ (nx, ny) ]} [(nx, ny)] 0).

(** ** get_safe_moves and is_risky_head_collision *)

(** Python's [enumerate]. *)
Definition enumerate {A} (l : list A) : list (nat * A) := imap pair l.

(** The inner loop of lines 109-111: every segment but the last one. *)
Definition add_segments_but_tail (acc : gset Cell) (snake : Snake)
    : gset Cell :=
  foldl (λ acc (e : nat * Point),
           if bool_decide
                (Z.of_nat e.1 < Z.of_nat (length (snake_body snake)) - 1)
           then {[ cell_of e.2 ]} ∪ acc else acc)
        acc (enumerate (snake_body snake)).

(** The set [all_snake_bodies] of [get_safe_moves]. *)
Definition all_snake_bodies (body : Body) : gset Cell :=
  foldl add_segments_but_tail ∅ (board_snakes (body_board body)).

(** The dict [moves], in insertion order. *)
Definition moves (x y : Z) : list (string * Cell) :=
  [("up", (x, y + 1)); ("down", (x, y - 1));
   ("left", (x - 1, y)); ("right", (x + 1, y))].

(** [enemy_possible_moves] around a head. *)
Definition enemy_possible_moves (snake_head : Point) : list Cell :=
  [(px snake_head + 1, py snake_head); (px snake_head - 1, py snake_head);
   (px snake_head, py snake_head + 1); (px snake_head, py snake_head - 1)].

(** The loop of [is_risky_head_collision] over board.snakes. *)
Fixpoint risky_loop (nx ny : Z) (my_id : string) (my_length : nat)
    (snakes : list Snake) : bool :=
  match snakes with
  | [] => false
  | snake :: rest =>
      if bool_decide (snake_id snake = my_id) then
        risky_loop nx ny my_id my_length rest
      else if bool_decide ((nx, ny) ∈ enemy_possible_moves (snake_head snake))
              && bool_decide (my_length ≤ length (snake_body snake))%nat
      then true
      else risky_loop nx ny my_id my_length rest
  end.

Definition is_risky_head_collision (nx ny : Z) (body : Body) : bool :=
  risky_loop nx ny (snake_id (body_you body))
    (length (snake_body (body_you body)))
    (board_snakes (body_board body)).

(** One turn of the loop over [moves.items()]; a [continue] keeps the
    list as it is. *)
Definition safe_moves_step (body : Body) (bodies : gset Cell)
    (safe_moves : list SafeMove) (entry : string * Cell) : list SafeMove :=
  let move := entry.1 in
  let nx := entry.2.1 in
  let ny := entry.2.2 in
  if negb (bool_decide (0 ≤ nx < board_width (body_board body))
           && bool_decide (0 ≤ ny < board_height (body_board body)))
  then safe_moves
  else if bool_decide ((nx, ny) ∈ bodies) then safe_moves
  else if is_risky_head_collision nx ny body then safe_moves
  else safe_moves ++ [(move, nx, ny)].

Definition get_safe_moves (body : Body) : list SafeMove :=
  let head := snake_head (body_you body) in
  foldl (safe_moves_step body (all_snake_bodies body)) []
        (moves (px head) (py head)).

(** ** find_nearest_food and get_move_toward_target *)

(** [distance < bound] where [None] stands for [float('inf')]. *)
Definition below (distance : Z) (bound : option Z) : bool :=
  match bound with
  | None => true
  | Some b => bool_decide (distance < b)
  end.

Definition nearest_step (head_x head_y : Z) (st : option Point * option Z)
    (food : Point) : option Point * option Z :=
  let distance := Z.abs (px food - head_x) + Z.abs (py food - head_y) in
  if below distance st.2 then (Some food, Some distance) else st.

Definition find_nearest_food (head_x head_y : Z) (food_list : list Point)
    : option Point :=
  match food_list with
  | [] => None
  | _ => (foldl (nearest_step head_x head_y) (None, None) food_list).1
  end.

Definition toward_step (target_x target_y : Z) (st : option string * option Z)
    (move_info : ScoredMove) : option string * option Z :=
  let move := sm_name move_info in
  let nx := sm_x move_info in
  let ny := sm_y move_info in
  let distance := Z.abs (target_x - nx) + Z.abs (target_y - ny) in
  if below distance st.2 then (Some move, Some distance) else st.

(** [head_x] and [head_y] are parameters the function never reads. *)
Definition get_move_toward_target (head_x head_y target_x target_y : Z)
    (move_options : list ScoredMove) : option string :=
  (foldl (toward_step target_x target_y) (None, None) move_options).1.

(** ** choose_best_move *)

(** [random.choice(seq)]: the element at the drawn index; [draw] is the
    next value of the random source.  An empty sequence raises. *)
Definition random_choice {A} (draw : nat) (seq : list A) : option A :=
  seq !! (draw mod length seq)%nat.

(** The set [obstacles] built in [choose_best_move], lines 58-61. *)
Definition add_segments (acc : gset Cell) (snake : Snake) : gset Cell :=
  foldl (λ acc segment, {[ cell_of segment ]} ∪ acc) acc (snake_body snake).

Definition space_obstacles (body : Body) : gset Cell :=
  foldl add_segments ∅ (board_snakes (body_board body)).

(** The loop filling [move_scores]. *)
Definition score_move (board_width board_height : Z) (obstacles : gset Cell)
    (m : SafeMove) : option ScoredMove :=
  space ← evaluate_move_space m.1.2 m.2 board_width board_height obstacles;
  Some (m.1.1, m.1.2, m.2, space).

(** Python's [max(seq, key=...)]: the first element with the largest
    key; an empty sequence raises. *)
Definition py_max {A} (key : A → Z) (seq : list A) : option A :=
  match seq with
  | [] => None
  | x :: rest =>
      Some (foldl (λ best m, if bool_decide (key best < key m) then m else best)
                  x rest)
  end.

(** Truth value of a string: non-empty. *)
Definition truthy (s : string) : bool :=
  match s with
  | EmptyString => false
  | String _ _ => true
  end.

Definition min_acceptable_space : Z := 5.

(** [good_moves] after lines 71-75. *)
Definition retained (move_scores : list ScoredMove) : list ScoredMove :=
  let good_moves :=
    filter (λ m, min_acceptable_space ≤ sm_space m) move_scores in
  match good_moves with
  | [] => move_scores
  | _ => good_moves
  end.

(** Lines 78-88: the move the food branch returns, if it returns. *)
Definition food_branch (body : Body) (good_moves : list ScoredMove)
    : option string :=
  let head := snake_head (body_you body) in
  let health := snake_health (body_you body) in
  let food_list := board_food (body_board body) in
  if bool_decide (health < 30) && negb (bool_decide (food_list = [])) then
    match find_nearest_food (px head) (py head) food_list with
    | Some nearest_food =>
        match get_move_toward_target (px head) (py head)
                (px nearest_food) (py nearest_food) good_moves with
        | Some food_move => if truthy food_move then Some food_move else None
        | None => None
        end
    | None => None
    end
  else None.

Definition scored_moves (body : Body) : option (list ScoredMove) :=
  mapM (score_move (board_width (body_board body))
          (board_height (body_board body)) (space_obstacles body))
       (get_safe_moves body).

Definition choose_best_move (draw : nat) (body : Body) : option string :=
  match get_safe_moves body with
  | [] => random_choice draw ["up"; "down"; "left"; "right"]
  | _ =>
      move_scores ← scored_moves body;
      let good_moves := retained move_scores in
      match food_branch body good_moves with
      | Some food_move => Some food_move
      | None =>
          best_move ← py_max sm_space good_moves;
          Some (sm_name best_move)
      end
  end.

(** ** Sample snapshots *)

Definition P (x y : Z) : Point := mkPoint x y.

(** The scenario of the specification: 11x11, one snake of length 3 at
    (5,5) coming from (5,4), health 50, no food. *)
Definition solo : Body :=
  let me := mkSnake "me" [P 5 5; P 5 4; P 5 3] (P 5 5) 50 in
  mkBody (mkBoard 11 11 [] [me]) me.

(** * Specification

    ** Flood fill: the component of the start cell *)

(** Two cells are 4-adjacent. *)
Definition adjacent (c c' : Cell) : Prop :=
  Z.abs (c'.1 - c.1) + Z.abs (c'.2 - c.2) = 1.

(** An in-bounds cell that is not an obstacle. *)
Definition free_cell (w h : Z) (obs : gset Cell) (c : Cell) : Prop :=
  0 ≤ c.1 < w ∧ 0 ≤ c.2 < h ∧ c ∉ obs.

(** A move of the fill: to an adjacent free cell. *)
Definition fill_edge (w h : Z) (obs : gset Cell) (c c' : Cell) : Prop :=
  adjacent c c' ∧ free_cell w h obs c'.

(** The cells connected to the start through free cells; the start
    counts whatever it is. *)
Definition reachable (w h : Z) (obs : gset Cell) (start : Cell)
    : Cell → Prop :=
  rtc (fill_edge w h obs) start.

(** The usual connectivity inside the free cells: every cell of the
    path is free. *)
Definition connected (w h : Z) (obs : gset Cell) : Cell → Cell → Prop :=
  rtc (λ c c', adjacent c c' ∧ free_cell w h obs c ∧ free_cell w h obs c').

(** [comp] is the 4-connected component of the start. *)
Definition is_component (w h : Z) (obs : gset Cell) (start : Cell)
    (comp : gset Cell) : Prop :=
  ∀ c, c ∈ comp ↔ reachable w h obs start c.

Definition shift (c d : Cell) : Cell := (c.1 + d.1, c.2 + d.2).

(** What holds of the fill state at every test of the [while]. *)
Record fill_inv (w h : Z) (obs : gset Cell) (start : Cell) (st : Fill)
    : Prop := {
  inv_start : start ∈ visited st;
  inv_reach : ∀ c, c ∈ visited st → reachable w h obs start c;
  inv_nodup : NoDup (queue st);
  inv_queue : ∀ c, c ∈ queue st → c ∈ visited st;
  inv_space :
    space st + Z.of_nat (length (queue st)) = Z.of_nat (size (visited st));
  inv_closed :
    ∀ c c', c ∈ visited st → c ∉ queue st → fill_edge w h obs c c' →
            c' ∈ visited st
}.

(** The start cell of the fill in a 2x2 board whose cell (1,0) is taken,
    and its component. *)
Definition corner_obstacles : gset Cell := {[ (1, 0) ]}.
Definition corner_component : gset Cell := {[ (0, 0); (0, 1); (1, 1) ]}.

(** ** Well-formed snapshots and the safety conditions *)

#[global] Instance Point_eq_dec : EqDecision Point.
Proof. solve_decision. Defined.

#[global] Instance Snake_eq_dec : EqDecision Snake.
Proof. solve_decision. Defined.

Definition on_board (w h : Z) (p : Point) : Prop :=
  0 ≤ px p < w ∧ 0 ≤ py p < h.

(** A snake of the snapshot: a non-empty body that starts at the head,
    all of it on the board, health between 0 and 100. *)
Definition snake_ok (w h : Z) (s : Snake) : Prop :=
  head (snake_body s) = Some (snake_head s)
  ∧ Forall (on_board w h) (snake_body s)
  ∧ 0 ≤ snake_health s ≤ 100.

Definition well_formed (body : Body) : Prop :=
  let board := body_board body in
  0 < board_width board
  ∧ 0 < board_height board
  ∧ Forall (on_board (board_width board) (board_height board))
           (board_food board)
  ∧ Forall (snake_ok (board_width board) (board_height board))
           (board_snakes board)
  ∧ NoDup (snake_id <$> board_snakes board)
  ∧ body_you body ∈ board_snakes board.

#[global] Instance well_formed_dec (body : Body) : Decision (well_formed body).
Proof. unfold well_formed, snake_ok, on_board. apply _. Defined.

(** The four direction labels, in the order of the dict [moves]. *)
Definition directions : list string := ["up"; "down"; "left"; "right"].

(** Where a direction leads from the head of the acting snake. *)
Definition destination (body : Body) (d : string) : option Cell :=
  let x := px (snake_head (body_you body)) in
  let y := py (snake_head (body_you body)) in
  if decide (d = "up") then Some (x, y + 1)
  else if decide (d = "down") then Some (x, y - 1)
  else if decide (d = "left") then Some (x - 1, y)
  else if decide (d = "right") then Some (x + 1, y)
  else None.

Definition in_bounds (body : Body) (c : Cell) : Prop :=
  0 ≤ c.1 < board_width (body_board body)
  ∧ 0 ≤ c.2 < board_height (body_board body).

(** The obstacle set of the safety filter: a body segment of some snake
    that is not that snake's last segment. *)
Definition is_obstacle (body : Body) (c : Cell) : Prop :=
  ∃ snake i p,
    snake ∈ board_snakes (body_board body)
    ∧ snake_body snake !! i = Some p
    ∧ (i + 1 < length (snake_body snake))%nat
    ∧ cell_of p = c.

(** A cell next to the head of another snake that is at least as long
    as the acting snake. *)
Definition risky_head_to_head (body : Body) (c : Cell) : Prop :=
  ∃ snake,
    snake ∈ board_snakes (body_board body)
    ∧ snake_id snake ≠ snake_id (body_you body)
    ∧ (length (snake_body (body_you body)) ≤ length (snake_body snake))%nat
    ∧ adjacent (cell_of (snake_head snake)) c.

Definition safe_destination (body : Body) (c : Cell) : Prop :=
  in_bounds body c ∧ ¬ is_obstacle body c ∧ ¬ risky_head_to_head body c.

(** The entries of [moves] as the triples [get_safe_moves] returns. *)
Definition candidates (body : Body) : list SafeMove :=
  (λ e : string * Cell, (e.1, e.2.1, e.2.2))
    <$> moves (px (snake_head (body_you body)))
              (py (snake_head (body_you body))).

(** The test a candidate passes to be kept by [safe_moves_step]. *)
Definition kept (body : Body) (m : SafeMove) : bool :=
  bool_decide (0 ≤ m.1.2 < board_width (body_board body))
  && bool_decide (0 ≤ m.2 < board_height (body_board body))
  && negb (bool_decide ((m.1.2, m.2) ∈ all_snake_bodies body))
  && negb (is_risky_head_collision m.1.2 m.2 body).

(** ** Linear scans: first minimum and first maximum *)

(** [x] is the first element of [l] with the least value of [f]. *)
Definition is_first_min {A} (f : A → Z) (l : list A) (x : A) : Prop :=
  ∃ i, l !! i = Some x
       ∧ (∀ j y, l !! j = Some y → f x ≤ f y)
       ∧ (∀ j y, l !! j = Some y → (j < i)%nat → f x < f y).

(** [x] is the first element of [l] with the greatest value of [f]. *)
Definition is_first_max {A} (f : A → Z) (l : list A) (x : A) : Prop :=
  ∃ i, l !! i = Some x
       ∧ (∀ j y, l !! j = Some y → f y ≤ f x)
       ∧ (∀ j y, l !! j = Some y → (j < i)%nat → f y < f x).

(** The common shape of the two scans for a least distance. *)
Definition scan_step {A B} (f : A → Z) (g : A → B)
    (st : option B * option Z) (x : A) : option B * option Z :=
  if below (f x) st.2 then (Some (g x), Some (f x)) else st.

(** ** The choices of the move selector *)

Definition manhattan (a b : Cell) : Z :=
  Z.abs (a.1 - b.1) + Z.abs (a.2 - b.2).

(** The score of a candidate is what the space evaluator returns for its
    destination on this board. *)
Definition scored_by (body : Body) (s : ScoredMove) : Prop :=
  evaluate_move_space (sm_x s) (sm_y s) (board_width (body_board body))
    (board_height (body_board body)) (space_obstacles body)
  = Some (sm_space s).

(** The acting snake is hungry and there is food to go for. *)
Definition seeks_food (body : Body) : Prop :=
  snake_health (body_you body) < 30 ∧ board_food (body_board body) ≠ [].

(** [c] is the retained candidate closest to the food that is nearest to
    the head, both by first minimum in list order. *)
Definition food_choice (body : Body) (good_moves : list ScoredMove)
    (c : ScoredMove) : Prop :=
  ∃ food,
    is_first_min (λ p, manhattan (cell_of p)
                         (cell_of (snake_head (body_you body))))
                 (board_food (body_board body)) food
    ∧ is_first_min (λ m, manhattan (cell_of food) (sm_x m, sm_y m))
                   good_moves c.

(** The candidates with a score of at least 5. *)
Definition roomy (move_scores : list ScoredMove) : list ScoredMove :=
  filter (λ m, 5 ≤ sm_space m) move_scores.

(** [c] has the first greatest score among the candidates of score at
    least 5 or, when there is none, among all of them. *)
Definition space_choice (move_scores : list ScoredMove) (c : ScoredMove)
    : Prop :=
  (roomy move_scores ≠ [] ∧ is_first_max sm_space (roomy move_scores) c)
  ∨ (roomy move_scores = [] ∧ is_first_max sm_space move_scores c).

(** No safe move: down and left are body segments, up and right are next
    to the head of a snake of the same length. *)
Definition trapped_with (health : Z) (food : list Point) : Body :=
  let me := mkSnake "me" [P 5 5; P 5 4; P 4 4; P 4 5; P 4 6] (P 5 5) health in
  let other :=
    mkSnake "other" [P 6 6; P 7 6; P 8 6; P 9 6; P 10 6] (P 6 6) 90 in
  mkBody (mkBoard 11 11 food [me; other]) me.

Definition trapped : Body := trapped_with 50 [].
Definition trapped_hungry : Body := trapped_with 10 [P 0 0].

(** Two safe moves: left into a pocket of 6 cells with the only food,
    right into the open board. *)
Definition pocket_with (health : Z) : Body :=
  let me := mkSnake "me" [P 2 0; P 2 1; P 2 2] (P 2 0) health in
  let wall := mkSnake "wall" [P 2 3; P 1 3; P 0 3] (P 2 3) 80 in
  mkBody (mkBoard 11 11 [P 0 0] [me; wall]) me.

Definition pocket_hungry : Body := pocket_with 10.
Definition pocket_healthy : Body := pocket_with 100.

(** ** The obstacle set of the space evaluator *)

(** A body segment of some snake, the last one included. *)
Definition is_segment (body : Body) (c : Cell) : Prop :=
  ∃ snake p,
    snake ∈ board_snakes (body_board body)
    ∧ p ∈ snake_body snake
    ∧ cell_of p = c.

(** ** The component of a start cell, computed *)

#[global] Instance free_cell_dec (w h : Z) (obs : gset Cell) (c : Cell) :
  Decision (free_cell w h obs c).
Proof. unfold free_cell. apply _. Defined.

(** The free cells next to [c]. *)
Definition free_neighbours (w h : Z) (obs : gset Cell) (c : Cell)
    : list Cell :=
  filter (free_cell w h obs) (shift c <$> offsets).

(** One more step away from the cells of [V]. *)
Definition grow (w h : Z) (obs : gset Cell) (V : gset Cell) : gset Cell :=
  V ∪ list_to_set (elements V ≫= free_neighbours w h obs).

(** All the cells of the board. *)
Definition board_cells (w h : Z) : gset Cell :=
  list_to_set (x ← seqZ 0 w; (λ y, (x, y)) <$> seqZ 0 h).

(** The cells at most [n] steps away from the start. *)
Fixpoint grow_n (w h : Z) (obs : gset Cell) (start : Cell) (n : nat)
    : gset Cell :=
  match n with
  | O => {[ start ]}
  | S n' => grow w h obs (grow_n w h obs start n')
  end.

(** The cells reachable from the start: as many growth steps as there
    are cells to reach. *)
Definition flood_component (w h : Z) (obs : gset Cell) (start : Cell)
    : gset Cell :=
  grow_n w h obs start (size ({[ start ]} ∪ board_cells w h)).

(** The snapshot [pocket_hungry] before the second snake joins. *)
Definition pocket_alone : Body :=
  let me := mkSnake "me" [P 2 0; P 2 1; P 2 2] (P 2 0) 10 in
  mkBody (mkBoard 11 11 [P 0 0] [me]) me.

(** The same snapshot with another food list. *)
Definition with_food (food : list Point) (body : Body) : Body :=
  mkBody (mkBoard (board_width (body_board body))
            (board_height (body_board body)) food
            (board_snakes (body_board body)))
         (body_you body).

(** A hungry snake in the corner (0,0) whose body takes the cell to its
    right: up is the only safe move. *)
Definition corner_snake : Body :=
  let me := mkSnake "me" [P 0 0; P 1 0; P 1 1; P 1 2] (P 0 0) 10 in
  mkBody (mkBoard 11 11 [] [me]) me.

(** ** lambda_handler and respond *)

(** The Python values of an event and of a response: what [json] and
    the Lambda runtime hand over.  A dict is the list of its items, with
    string keys. *)
#[local] Set Warnings "-register-all".

Inductive pyval :=
| PNone
| PBool (b : bool)
| PInt (z : Z)
| PStr (s : string)
| PList (l : list pyval)
| PDict (d : list (string * pyval)).

(** The value stored under a key, if any. *)
Fixpoint dict_get (d : list (string * pyval)) (key : string)
    : option pyval :=
  match d with
  | [] => None
  | (k, v) :: d' => if String.eqb k key then Some v else dict_get d' key
  end.

(** [v.get(key, default)]; anything but a dict has no [get] and
    raises. *)
Definition py_get (v : pyval) (key : string) (fallback : pyval)
    : option pyval :=
  match v with
  | PDict d => Some (default fallback (dict_get d key))
  | _ => None
  end.

(** The truth value of a Python value. *)
Definition py_truthy (v : pyval) : bool :=
  match v with
  | PNone => false
  | PBool b => b
  | PInt z => negb (bool_decide (z = 0))
  | PStr s => truthy s
  | PList l => match l with [] => false | _ => true end
  | PDict d => match d with [] => false | _ => true end
  end.

(** [v == s] for a string literal [s]. *)
Definition py_eq_str (v : pyval) (s : string) : bool :=
  match v with
  | PStr s' => String.eqb s' s
  | _ => false
  end.

(** The document served at the root path. *)
Definition metadata : pyval :=
  PDict [("apiversion", PStr "1"); ("author", PStr "amanda");
         ("color", PStr "#5203fc"); ("head", PStr "smart-caterpillar");
         ("tail", PStr "weight")].

(** The answer to a request no route takes. *)
Definition not_found : pyval :=
  PDict [("statusCode", PInt 404); ("body", PStr "Not found")].

Section Handler.
(** [json.dumps] and [json.loads] of the Python library ([None] when
    [loads] raises), and [choose_best_move] as the handler calls it, on
    the parsed body as it comes ([None] when it raises). *)
Variable json_dumps : pyval → string.
Variable json_loads : string → option pyval.
Variable choose_raw : pyval → option string.

Definition respond (body : pyval) : pyval :=
  PDict [("statusCode", PInt 200);
         ("headers", PDict [("Content-Type", PStr "application/json")]);
         ("body", PStr (json_dumps body))].

(** [event.get("rawPath") or event.get("path")]. *)
Definition request_path (event : pyval) : option pyval :=
  raw ← py_get event "rawPath" PNone;
  if py_truthy raw then Some raw else py_get event "path" PNone.

(** [event.get("requestContext", {}).get("http", {}).get("method", "GET")]. *)
Definition request_method (event : pyval) : option pyval :=
  request_context ← py_get event "requestContext" (PDict []);
  http ← py_get request_context "http" (PDict []);
  py_get http "method" (PStr "GET").

(** The branch of [/move]: parse the body, choose, answer. *)
Definition move_response (event : pyval) : option pyval :=
  text ← py_get event "body" (PStr "{}");
  body ← match text with PStr s => json_loads s | _ => None end;
  move ← choose_raw body;
  Some (respond (PDict [("move", PStr move)])).

Definition lambda_handler (event : pyval) : option pyval :=
  path ← request_path event;
  method ← request_method event;
  if py_eq_str path "/" then Some (respond metadata)
  else if py_eq_str path "/start" && py_eq_str method "POST"
  then Some (respond (PDict []))
  else if py_eq_str path "/move" && py_eq_str method "POST"
  then move_response event
  else if py_eq_str path "/end" && py_eq_str method "POST"
  then Some (respond (PDict []))
  else Some not_found.
End Handler.

(** ** The snapshot as a parsed JSON value *)

Definition as_int (v : pyval) : option Z :=
  match v with PInt z => Some z | _ => None end.

Definition as_str (v : pyval) : option string :=
  match v with PStr s => Some s | _ => None end.

Definition as_list (v : pyval) : option (list pyval) :=
  match v with PList l => Some l | _ => None end.

Definition field (v : pyval) (key : string) : option pyval :=
  match v with PDict d => dict_get d key | _ => None end.

(** A value that holds a snapshot of the shape
    board.{width, height, food[].{x,y}, snakes[]}, you and
    snake.{id, body[].{x,y}, head.{x,y}, health}, all numbers integers,
    is read as that snapshot; other keys are ignored. *)
Definition decode_point (v : pyval) : option Point :=
  x ← field v "x" ≫= as_int;
  y ← field v "y" ≫= as_int;
  Some (mkPoint x y).

Definition decode_snake (v : pyval) : option Snake :=
  id ← field v "id" ≫= as_str;
  segments ← field v "body" ≫= as_list;
  body ← mapM decode_point segments;
  head ← field v "head" ≫= decode_point;
  health ← field v "health" ≫= as_int;
  Some (mkSnake id body head health).

Definition decode_board (v : pyval) : option Board :=
  width ← field v "width" ≫= as_int;
  height ← field v "height" ≫= as_int;
  items ← field v "food" ≫= as_list;
  food ← mapM decode_point items;
  entries ← field v "snakes" ≫= as_list;
  snakes ← mapM decode_snake entries;
  Some (mkBoard width height food snakes).

Definition decode_body (v : pyval) : option Body :=
  board ← field v "board" ≫= decode_board;
  you ← field v "you" ≫= decode_snake;
  Some (mkBody board you).

(** The JSON value of a snapshot. *)
Definition encode_point (p : Point) : pyval :=
  PDict [("x", PInt (px p)); ("y", PInt (py p))].

Definition encode_snake (s : Snake) : pyval :=
  PDict [("id", PStr (snake_id s));
         ("health", PInt (snake_health s));
         ("body", PList (encode_point <$> snake_body s));
         ("head", encode_point (snake_head s))].

Definition encode_body (b : Body) : pyval :=
  PDict [("game", PDict []);
         ("turn", PInt 7);
         ("board",
          PDict [("height", PInt (board_height (body_board b)));
                 ("width", PInt (board_width (body_board b)));
                 ("food", PList (encode_point <$> board_food (body_board b)));
                 ("snakes",
                  PList (encode_snake <$> board_snakes (body_board b)))]);
         ("you", encode_snake (body_you b))].

(** A move request as an HTTP API delivers it. *)
Definition move_event (text : string) : pyval :=
  PDict [("version", PStr "2.0");
         ("rawPath", PStr "/move");
         ("requestContext",
          PDict [("http", PDict [("method", PStr "POST");
                                 ("path", PStr "/move")])]);
         ("body", PStr text)].

(** The board of [pocket_hungry] with the food right next to the head,
    at (1,0). *)
Definition lunch : Body :=
  let me := mkSnake "me" [P 2 0; P 2 1; P 2 2] (P 2 0) 10 in
  let wall := mkSnake "wall" [P 2 3; P 1 3; P 0 3] (P 2 3) 80 in
  mkBody (mkBoard 11 11 [P 9 9; P 1 0] [me; wall]) me.

(** The event carries no requestContext.http.method: one of the three
    keys is missing on the way. *)
Definition no_method (d : list (string * pyval)) : Prop :=
  dict_get d "requestContext" = None
  ∨ ∃ rc, dict_get d "requestContext" = Some (PDict rc)
          ∧ (dict_get rc "http" = None
             ∨ ∃ http, dict_get rc "http" = Some (PDict http)
                       ∧ dict_get http "method" = None).

(** * Proofs *)

(** ** The code on sample inputs *)

Example evaluate_move_space_3x3 :
  evaluate_move_space 0 0 3 3 {[ (1, 1) ]} = Some 8.
Proof. vm_compute. reflexivity. Qed.

Example evaluate_move_space_cap :
  evaluate_move_space 5 5 11 11 ∅ = Some 50.
Proof. vm_compute. reflexivity. Qed.

Example solo_safe_moves :
  get_safe_moves solo = [("up", 5, 6); ("left", 4, 5); ("right", 6, 5)].
Proof. vm_compute. reflexivity. Qed.

Example solo_choice : choose_best_move 0 solo = Some "up".
Proof. vm_compute. reflexivity. Qed.

(** ** The flood fill *)

Lemma adjacent_offsets (c c' : Cell) :
  adjacent c c' ↔ ∃ d, d ∈ offsets ∧ c' = shift c d.
Proof.
  destruct c as [x y], c' as [x' y']. unfold adjacent, shift, offsets.
  simpl. split.
  - intros Hadj.
    assert (Hcases : (x' = x ∧ y' = y + 1) ∨ (x' = x ∧ y' = y - 1)
                     ∨ (x' = x + 1 ∧ y' = y) ∨ (x' = x - 1 ∧ y' = y)) by lia.
    destruct Hcases as [[-> ->]|[[-> ->]|[[-> ->]|[-> ->]]]].
    + exists (0, 1). split; [set_solver|]. simpl. f_equal; lia.
    + exists (0, -1). split; [set_solver|]. simpl. f_equal; lia.
    + exists (1, 0). split; [set_solver|]. simpl. f_equal; lia.
    + exists (-1, 0). split; [set_solver|]. simpl. f_equal; lia.
  - intros [d [Hd Heq]].
    repeat (apply elem_of_cons in Hd as [->|Hd]); [..|by apply elem_of_nil in Hd];
      simpl in Heq; injection Heq as -> ->; lia.
Qed.

(** From a free start the reachable cells are the cells connected to it
    inside the free cells. *)
Lemma reachable_connected (w h : Z) (obs : gset Cell) (start c : Cell) :
  free_cell w h obs start →
  reachable w h obs start c ↔ connected w h obs start c.
Proof.
  intros Hstart. split.
  - intros Hr.
    cut (connected w h obs start c ∧ free_cell w h obs c); [tauto|].
    revert c Hr. apply rtc_ind_r.
    + split; [apply rtc_refl|done].
    + intros y z _ [Hadj Hz] [Hy Hfree]. split; [|done].
      eapply rtc_r; [exact Hy|]. by split_and!.
  - intros Hc. eapply rtc_subrel; [|exact Hc].
    intros a b (Hadj & _ & Hb). by split.
Qed.

Section FloodFill.
Context (w h : Z) (obs : gset Cell).

(** What the sweep of the neighbours of [c] adds to the visited set
    and to the queue. *)
Lemma sweep_spec (c : Cell) (ds : list Cell) (V : gset Cell)
    (Q : list Cell) :
  ∃ new,
    (foldl (visit_neighbour w h obs c) (V, Q) ds).2 = Q ++ new
    ∧ NoDup new
    ∧ (∀ x, x ∈ (foldl (visit_neighbour w h obs c) (V, Q) ds).1
            ↔ x ∈ V ∨ x ∈ new)
    ∧ (∀ x, x ∈ new →
            (x ∉ V) ∧ free_cell w h obs x ∧ (∃ d, d ∈ ds ∧ x = shift c d))
    ∧ (∀ d, d ∈ ds → free_cell w h obs (shift c d) →
            shift c d ∈ (foldl (visit_neighbour w h obs c) (V, Q) ds).1).
Proof.
  revert V Q. induction ds as [|d ds IH]; intros V Q.
  - exists []. simpl. rewrite app_nil_r.
    split_and!; [done|constructor|set_solver|set_solver|set_solver].
  - simpl. unfold visit_neighbour at 2 4 6. simpl.
    fold (shift c d).
    destruct (bool_decide (0 ≤ c.1 + d.1 < w)
              && bool_decide (0 ≤ c.2 + d.2 < h)
              && bool_decide (shift c d ∉ V)
              && bool_decide (shift c d ∉ obs)) eqn:Hcond.
    + apply andb_prop in Hcond as [Hcond Hobs].
      apply andb_prop in Hcond as [Hcond Hvis].
      apply andb_prop in Hcond as [Hx Hy].
      apply bool_decide_eq_true in Hx, Hy, Hvis, Hobs.
      destruct (IH ({[shift c d]} ∪ V) (Q ++ [shift c d]))
        as (new & Hq & Hnd & Hv & Hnew & Hall).
      exists (shift c d :: new). split_and!.
      * rewrite Hq, <- app_assoc. done.
      * constructor; [|done]. intros Hin.
        apply Hnew in Hin as [Hin _]. set_solver.
      * intros x. rewrite Hv. set_solver.
      * intros x [->|Hin]%elem_of_cons.
        -- split_and!; [done|done|]. exists d. set_solver.
        -- apply Hnew in Hin as (Hnot & Hfree & d' & Hd' & ->).
           split_and!; [set_solver|done|]. exists d'. set_solver.
      * intros d' [->|Hd']%elem_of_cons Hfree.
        -- apply Hv. set_solver.
        -- by apply Hall.
    + destruct (IH V Q) as (new & Hq & Hnd & Hv & Hnew & Hall).
      exists new. split_and!; [done|done|done|..].
      * intros x Hin. apply Hnew in Hin as (Hnot & Hfree & d' & Hd' & ->).
        split_and!; [done|done|]. exists d'. set_solver.
      * intros d' [->|Hd']%elem_of_cons Hfree; [|by apply Hall].
        apply Hv. left.
        destruct Hfree as (Hx & Hy & Hobs).
        destruct (decide (shift c d ∈ V)) as [|Hnot]; [done|].
        exfalso. unfold shift in *. simpl in *.
        rewrite !andb_false_iff, !bool_decide_eq_false in Hcond.
        tauto.
Qed.
End FloodFill.

Section FillInvariant.
Context (w h : Z) (obs : gset Cell) (start : Cell).

Lemma fill_inv_init : fill_inv w h obs start (mkFill {[ start ]} [start] 0).
Proof.
  split; cbn [visited queue space].
  - set_solver.
  - intros c ->%elem_of_singleton. apply rtc_refl.
  - apply NoDup_singleton.
  - set_solver.
  - rewrite size_singleton. simpl. lia.
  - intros c c' ->%elem_of_singleton Hq. set_solver.
Qed.

Lemma fill_inv_step (st : Fill) (c : Cell) (rest : list Cell) :
  queue st = c :: rest → fill_inv w h obs start st →
  fill_inv w h obs start (fill_step w h obs c rest st).
Proof.
  intros Hq [Hstart Hreach Hnd Hqv Hsp Hcl]. rewrite Hq in *.
  unfold fill_step.
  destruct (sweep_spec w h obs c offsets (visited st) rest)
    as (new & Hq' & Hndn & Hv & Hnew & Hall).
  apply NoDup_cons in Hnd as [Hc Hnd].
  assert (Hsize :
    size (foldl (visit_neighbour w h obs c) (visited st, rest) offsets).1
    = (size (visited st) + length new)%nat).
  { rewrite <- (size_list_to_set (C:=gset Cell) new) by done.
    rewrite <- size_union by (intros x Hx1 Hx2%elem_of_list_to_set;
                               apply Hnew in Hx2; tauto).
    f_equal. apply set_eq. intros x. rewrite Hv. set_solver. }
  split; cbn [visited queue space].
  - apply Hv. by left.
  - intros x [Hx|Hx]%Hv; [by apply Hreach|].
    apply Hnew in Hx as (_ & Hfree & d & Hd & ->).
    eapply rtc_r; [apply Hreach, Hqv; left|].
    split; [|done]. apply adjacent_offsets. eauto.
  - rewrite Hq'. apply NoDup_app. split_and!; [done| |done].
    intros x Hx Hx'. apply Hnew in Hx' as [Hnot _].
    apply Hnot, Hqv. by right.
  - rewrite Hq'. intros x [Hx|Hx]%elem_of_app; apply Hv.
    + left. apply Hqv. by right.
    + by right.
  - rewrite Hq', Hsize, length_app. simpl in Hsp. lia.
  - rewrite Hq'. intros x x' [Hx|Hx]%Hv Hnq Hedge;
      [|exfalso; apply Hnq, elem_of_app; by right].
    destruct (decide (x = c)) as [->|Hne].
    + destruct Hedge as [[d [Hd ->]]%adjacent_offsets Hfree].
      by apply Hall.
    + apply Hv. left. apply (Hcl x x'); [done| |done].
      intros [?|?]%elem_of_cons; [done|].
      apply Hnq, elem_of_app. by left.
Qed.

(** With an empty queue the visited set is the whole component. *)
Lemma fill_inv_done (st : Fill) (comp : gset Cell) :
  queue st = [] → fill_inv w h obs start st → is_component w h obs start comp →
  visited st = comp.
Proof.
  intros Hq [Hstart Hreach _ _ _ Hcl] Hcomp. rewrite Hq in Hcl.
  apply set_eq. intros c. rewrite (Hcomp c). split; [apply Hreach|].
  unfold reachable. revert c. apply rtc_ind_r; [done|].
  intros y z _ Hyz IH.
  apply (Hcl y z); [done|apply not_elem_of_nil|done].
Qed.

(** Visited cells are cells of the component. *)
Lemma fill_inv_size (st : Fill) (comp : gset Cell) :
  fill_inv w h obs start st → is_component w h obs start comp →
  space st ≤ Z.of_nat (size comp).
Proof.
  intros [_ Hreach _ _ Hsp _] Hcomp.
  assert (size (visited st) ≤ size comp)%nat.
  { apply subseteq_size. intros c Hc. apply Hcomp, Hreach, Hc. }
  lia.
Qed.

(** The loop exits within [max_iterations - space] turns. *)
Lemma fill_loop_total (fuel : nat) (st : Fill) :
  (Z.to_nat (max_iterations - space st) ≤ fuel)%nat →
  is_Some (fill_loop fuel w h obs st).
Proof.
  revert st. induction fuel as [|fuel IH]; intros st Hfuel; simpl.
  - destruct (queue st); [done|]. case_bool_decide; [lia|done].
  - destruct (queue st) as [|c rest]; [done|].
    case_bool_decide; [|done]. apply IH. simpl. lia.
Qed.

(** The count only grows, and stops at the cap. *)
Lemma fill_loop_bounds (fuel : nat) (st : Fill) (n : Z) :
  fill_loop fuel w h obs st = Some n →
  space st ≤ n ∧ (space st ≤ max_iterations → n ≤ max_iterations).
Proof.
  revert st. induction fuel as [|fuel IH]; intros st; simpl.
  - destruct (queue st); [intros [= <-]; lia|].
    case_bool_decide; [done|intros [= <-]; lia].
  - destruct (queue st) as [|c rest]; [intros [= <-]; lia|].
    case_bool_decide; [|intros [= <-]; lia].
    intros [Hle Hcap]%IH. simpl in *. lia.
Qed.

(** The result is the size of the component, or the cap if the
    component has at least that many cells. *)
Lemma fill_loop_component (fuel : nat) (st : Fill) (n : Z)
    (comp : gset Cell) :
  fill_inv w h obs start st → space st ≤ max_iterations →
  is_component w h obs start comp →
  fill_loop fuel w h obs st = Some n →
  n = Z.of_nat (size comp)
  ∨ (n = max_iterations ∧ max_iterations ≤ Z.of_nat (size comp)).
Proof.
  intros Hinv Hle Hcomp. revert st Hinv Hle.
  assert (Hempty : ∀ st, queue st = [] → fill_inv w h obs start st →
                         space st = Z.of_nat (size comp)).
  { intros st Hq Hinv. rewrite <- (fill_inv_done st comp Hq Hinv Hcomp).
    pose proof (inv_space w h obs start st Hinv) as Hsp. rewrite Hq in Hsp.
    simpl in Hsp. lia. }
  assert (Hfull : ∀ st, fill_inv w h obs start st →
                        space st ≤ max_iterations →
                        ¬ space st < max_iterations →
                        space st = max_iterations
                        ∧ max_iterations ≤ Z.of_nat (size comp)).
  { intros st Hinv Hle Hnlt.
    pose proof (fill_inv_size st comp Hinv Hcomp). lia. }
  induction fuel as [|fuel IH]; intros st Hinv Hle; simpl.
  - destruct (queue st) as [|c rest] eqn:Hq.
    + intros [= <-]. left. by apply Hempty.
    + case_bool_decide; [done|]. intros [= <-]. right. by apply Hfull.
  - destruct (queue st) as [|c rest] eqn:Hq.
    + intros [= <-]. left. by apply Hempty.
    + case_bool_decide; [|intros [= <-]; right; by apply Hfull].
      apply IH; [by apply fill_inv_step|simpl; lia].
Qed.
End FillInvariant.

Lemma corner_is_component :
  is_component 2 2 corner_obstacles (0, 0) corner_component.
Proof.
  assert (Hfree : ∀ c, free_cell 2 2 corner_obstacles c → c ∈ corner_component).
  { intros [x y] (Hx & Hy & Hobs). simpl in *.
    unfold corner_obstacles, corner_component in *.
    assert (Hne : ¬ (x = 1 ∧ y = 0)) by (intros [-> ->]; set_solver).
    assert (Hc : (x = 0 ∧ y = 0) ∨ (x = 0 ∧ y = 1) ∨ (x = 1 ∧ y = 1)) by lia.
    destruct Hc as [[-> ->]|[[-> ->]|[-> ->]]]; set_solver. }
  assert (Hedge : ∀ c c', adjacent c c' → c' ∈ corner_component →
                          c' ≠ (0, 0) → fill_edge 2 2 corner_obstacles c c').
  { intros c c' Hadj Hc' Hne. split; [done|].
    unfold corner_component, corner_obstacles, free_cell in *.
    set_unfold. destruct Hc' as [[->| ->]| ->]; simpl;
      repeat split; try lia; congruence. }
  intros c. split.
  - unfold corner_component. intros Hc.
    assert (H01 : reachable 2 2 corner_obstacles (0, 0) (0, 1)).
    { apply rtc_once, Hedge; [reflexivity|set_solver|done]. }
    assert (H11 : reachable 2 2 corner_obstacles (0, 0) (1, 1)).
    { eapply rtc_r; [exact H01|]. apply Hedge; [reflexivity|set_solver|done]. }
    set_unfold. destruct Hc as [[->| ->]| ->]; [apply rtc_refl|done|done].
  - unfold reachable. revert c. apply rtc_ind_r.
    + unfold corner_component. set_solver.
    + intros y z _ [_ Hz] _. by apply Hfree.
Qed.

(** C3: the space evaluator always returns a count, the count is never
    above 50, and it is the size of the 4-connected component of the
    start (the start included) whenever that component has fewer than 50
    cells. *)
Theorem evaluate_move_space_capped (nx ny w h : Z) (obs : gset Cell) :
  ∃ n, evaluate_move_space nx ny w h obs = Some n
       ∧ n ≤ 50
       ∧ ∀ comp, is_component w h obs (nx, ny) comp →
                 Z.of_nat (size comp) < 50 → n = Z.of_nat (size comp).
Proof.
  unfold evaluate_move_space.
  destruct (fill_loop_total w h obs (Z.to_nat max_iterations)
              (mkFill {[ (nx, ny) ]} [(nx, ny)] 0)) as [n Hn];
    [simpl; lia|].
  exists n. split_and!; [done|..].
  - apply fill_loop_bounds in Hn as [_ Hcap]. apply Hcap. simpl.
    unfold max_iterations. lia.
  - intros comp Hcomp Hsmall.
    destruct (fill_loop_component w h obs (nx, ny) _ _ n comp
                (fill_inv_init w h obs (nx, ny)) ltac:(simpl; unfold max_iterations; lia)
                Hcomp Hn) as [->|[_ Hbig]]; [done|].
    unfold max_iterations in Hbig. lia.
Qed.

Lemma evaluate_move_space_capped_witness :
  is_component 2 2 corner_obstacles (0, 0) corner_component
  ∧ Z.of_nat (size corner_component) < 50
  ∧ evaluate_move_space 0 0 2 2 corner_obstacles = Some 3.
Proof.
  split_and!; [exact corner_is_component|vm_compute; reflexivity|].
  destruct (evaluate_move_space_capped 0 0 2 2 corner_obstacles)
    as (n & Hn & _ & Hsize).
  rewrite Hn, (Hsize corner_component corner_is_component);
    vm_compute; reflexivity.
Defined.

(** A component larger than the cap is reported as the cap. *)
Lemma evaluate_move_space_saturates (nx ny w h : Z) (obs comp : gset Cell) :
  is_component w h obs (nx, ny) comp → 50 ≤ Z.of_nat (size comp) →
  evaluate_move_space nx ny w h obs = Some 50.
Proof.
  intros Hcomp Hbig. unfold evaluate_move_space.
  destruct (fill_loop_total w h obs (Z.to_nat max_iterations)
              (mkFill {[ (nx, ny) ]} [(nx, ny)] 0)) as [n Hn];
    [simpl; lia|].
  rewrite Hn. f_equal.
  destruct (fill_loop_component w h obs (nx, ny) _ _ n comp
              (fill_inv_init w h obs (nx, ny)) ltac:(simpl; unfold max_iterations; lia)
              Hcomp Hn) as [->|[-> _]]; [|done].
  pose proof (fill_loop_bounds w h obs _ _ _ Hn) as [_ Hcap].
  simpl in Hcap. unfold max_iterations in Hcap. lia.
Qed.

(** C10: the space evaluator returns at least 1 for every start, board
    and obstacle set: the start cell is dequeued and counted before any
    test of bounds or obstacles. *)
Theorem evaluate_move_space_at_least_one (nx ny w h : Z) (obs : gset Cell) :
  ∃ n, evaluate_move_space nx ny w h obs = Some n ∧ 1 ≤ n.
Proof.
  unfold evaluate_move_space.
  change (Z.to_nat max_iterations) with (S 49).
  cbn [fill_loop queue space].
  rewrite bool_decide_eq_true_2 by (unfold max_iterations; lia).
  destruct (fill_loop_total w h obs 49
              (fill_step w h obs (nx, ny) []
                 (mkFill {[ (nx, ny) ]} [(nx, ny)] 0))) as [n Hn];
    [unfold fill_step, max_iterations; cbn [space]; lia|].
  exists n. split; [done|].
  apply fill_loop_bounds in Hn as [Hle _].
  unfold fill_step in Hle. cbn [space] in Hle. lia.
Qed.

Example evaluate_move_space_on_obstacle :
  evaluate_move_space 1 1 3 3 {[ (1, 1); (0, 1); (1, 0); (2, 1); (1, 2) ]}
  = Some 1.
Proof. vm_compute. reflexivity. Qed.

Example evaluate_move_space_off_board :
  evaluate_move_space (-1) 0 2 2 ∅ = Some 5.
Proof. vm_compute. reflexivity. Qed.

(** ** The safety filter *)

Lemma solo_well_formed : well_formed solo.
Proof. apply (bool_decide_unpack (well_formed solo)). vm_compute. exact I. Qed.

Lemma destination_candidates (body : Body) (d : string) (nx ny : Z) :
  (d, nx, ny) ∈ candidates body ↔ destination body d = Some (nx, ny).
Proof.
  unfold candidates, destination, moves. simpl. split.
  - intros Hin.
    repeat (apply elem_of_cons in Hin as [[= -> -> ->]|Hin]; [done|]).
    by apply elem_of_nil in Hin.
  - repeat (case_decide; [subst; intros [= <- <-]; set_solver|]). done.
Qed.

Section SafetyFilter.
Context (body : Body).

Lemma add_segments_but_tail_spec (acc : gset Cell) (snake : Snake)
    (c : Cell) :
  c ∈ add_segments_but_tail acc snake
  ↔ c ∈ acc ∨ ∃ i p, snake_body snake !! i = Some p
                      ∧ (i + 1 < length (snake_body snake))%nat
                      ∧ cell_of p = c.
Proof.
  unfold add_segments_but_tail.
  assert (Hfold : ∀ (n : nat) (es : list (nat * Point)) (a : gset Cell),
    c ∈ foldl (λ acc (e : nat * Point),
                 if bool_decide (Z.of_nat e.1 < Z.of_nat n - 1)
                 then {[ cell_of e.2 ]} ∪ acc else acc) a es
    ↔ c ∈ a ∨ ∃ e, e ∈ es ∧ (e.1 + 1 < n)%nat ∧ cell_of e.2 = c).
  { intros n es. induction es as [|e es IH]; intros a; simpl.
    - set_solver.
    - rewrite IH. case_bool_decide.
      + split.
        * intros [[->%elem_of_singleton|?]%elem_of_union|(e' & ? & ? & ?)];
            [right; exists e; split_and!; [set_solver|lia|done]
            |by left|right; exists e'; set_solver].
        * intros [?|(e' & [->|?]%elem_of_cons & ? & ?)];
            [left; set_solver|left; set_solver|right; eauto].
      + split.
        * intros [?|(e' & ? & ? & ?)];
            [by left|right; exists e'; set_solver].
        * intros [?|(e' & [->|?]%elem_of_cons & ? & ?)];
            [by left|lia|right; eauto]. }
  rewrite Hfold. unfold enumerate. split.
  - intros [?|([i p] & Hin & ? & ?)]; [by left|right].
    apply elem_of_lookup_imap in Hin as (i' & p' & [= -> ->] & ?). eauto.
  - intros [?|(i & p & ? & ? & ?)]; [by left|right].
    exists (i, p). split_and!; [|done|done].
    apply elem_of_lookup_imap. eauto.
Qed.

Lemma all_snake_bodies_spec (c : Cell) :
  c ∈ all_snake_bodies body ↔ is_obstacle body c.
Proof.
  unfold all_snake_bodies, is_obstacle.
  assert (Hfold : ∀ (snakes : list Snake) (a : gset Cell),
    c ∈ foldl add_segments_but_tail a snakes
    ↔ c ∈ a ∨ ∃ snake i p, snake ∈ snakes
                ∧ snake_body snake !! i = Some p
                ∧ (i + 1 < length (snake_body snake))%nat
                ∧ cell_of p = c).
  { induction snakes as [|s snakes IH]; intros a; simpl.
    - set_solver.
    - rewrite IH, add_segments_but_tail_spec. split.
      + intros [[?|(i & p & ?)]|(s' & i & p & ? & ?)];
          [by left|right; exists s, i, p; set_solver
          |right; exists s', i, p; set_solver].
      + intros [?|(s' & i & p & [->|?]%elem_of_cons & ?)];
          [left; by left|left; right; eauto|right; eauto 6]. }
  rewrite Hfold. set_solver.
Qed.
End SafetyFilter.

Lemma enemy_possible_moves_adjacent (p : Point) (c : Cell) :
  c ∈ enemy_possible_moves p ↔ adjacent (cell_of p) c.
Proof.
  destruct p as [x y], c as [nx ny].
  unfold enemy_possible_moves, adjacent, cell_of. simpl. split.
  - intros Hin.
    repeat (apply elem_of_cons in Hin as [[= -> ->]|Hin]; [lia|]).
    by apply elem_of_nil in Hin.
  - intros Hadj.
    assert (Hc : (nx = x + 1 ∧ ny = y) ∨ (nx = x - 1 ∧ ny = y)
                 ∨ (nx = x ∧ ny = y + 1) ∨ (nx = x ∧ ny = y - 1)) by lia.
    destruct Hc as [[-> ->]|[[-> ->]|[[-> ->]|[-> ->]]]]; set_solver.
Qed.

Lemma risky_loop_spec (nx ny : Z) (my_id : string) (my_length : nat)
    (snakes : list Snake) :
  risky_loop nx ny my_id my_length snakes = true
  ↔ ∃ snake, snake ∈ snakes
             ∧ snake_id snake ≠ my_id
             ∧ (my_length ≤ length (snake_body snake))%nat
             ∧ adjacent (cell_of (snake_head snake)) (nx, ny).
Proof.
  induction snakes as [|s snakes IH]; simpl.
  - split; [done|]. intros (s & Hs & _). by apply elem_of_nil in Hs.
  - case_bool_decide as Hid.
    + rewrite IH. split.
      * intros (s' & ? & ?). exists s'. set_solver.
      * intros (s' & [->|?]%elem_of_cons & ? & ?); [done|eauto].
    + destruct (bool_decide ((nx, ny) ∈ enemy_possible_moves (snake_head s))
                && bool_decide (my_length ≤ length (snake_body s))%nat)
        eqn:Hcond.
      * apply andb_prop in Hcond as [Hadj Hlen].
        apply bool_decide_eq_true in Hadj, Hlen.
        apply enemy_possible_moves_adjacent in Hadj.
        split; [|done]. intros _. exists s. set_solver.
      * rewrite IH. split.
        -- intros (s' & ? & ?). exists s'. set_solver.
        -- intros (s' & [->|?]%elem_of_cons & ? & Hlen & Hadj); [|eauto].
           apply enemy_possible_moves_adjacent in Hadj.
           rewrite andb_false_iff, !bool_decide_eq_false in Hcond. tauto.
Qed.

Lemma is_risky_head_collision_spec (body : Body) (nx ny : Z) :
  is_risky_head_collision nx ny body = true
  ↔ risky_head_to_head body (nx, ny).
Proof. apply risky_loop_spec. Qed.

Lemma kept_spec (body : Body) (m : SafeMove) :
  kept body m = true ↔ safe_destination body (m.1.2, m.2).
Proof.
  unfold kept, safe_destination, in_bounds. simpl.
  rewrite !andb_true_iff, !negb_true_iff, !bool_decide_eq_true,
    bool_decide_eq_false, all_snake_bodies_spec,
    <- is_risky_head_collision_spec, not_true_iff_false.
  tauto.
Qed.

Lemma get_safe_moves_filter (body : Body) :
  get_safe_moves body = filter (λ m, kept body m = true) (candidates body).
Proof.
  unfold get_safe_moves, candidates.
  generalize (moves (px (snake_head (body_you body)))
                    (py (snake_head (body_you body)))).
  intros l. rewrite <- (app_nil_l (filter _ _)).
  generalize (@nil SafeMove).
  induction l as [|e l IH]; intros acc; simpl.
  - by rewrite app_nil_r.
  - rewrite IH. unfold safe_moves_step. rewrite filter_cons.
    destruct (decide (kept body (e.1, e.2.1, e.2.2) = true)) as [Hk|Hk];
      unfold kept in Hk; simpl in Hk.
    + apply andb_prop in Hk as [Hk Hr]. apply andb_prop in Hk as [Hb Ho].
      apply negb_true_iff in Ho, Hr. rewrite Hb, Ho, Hr. simpl.
      by rewrite <- app_assoc.
    + destruct (bool_decide (0 ≤ e.2.1 < board_width (body_board body))
                && bool_decide (0 ≤ e.2.2 < board_height (body_board body)));
        simpl in *; [|done].
      destruct (bool_decide ((e.2.1, e.2.2) ∈ all_snake_bodies body));
        simpl in *; [done|].
      destruct (is_risky_head_collision e.2.1 e.2.2 body); simpl in *; done.
Qed.

(** C5: the safety filter returns exactly the candidates, in the order
    up, down, left, right, whose destination is on the board, is not a
    body segment other than a last one, and is not next to the head of
    another snake at least as long as the acting snake. *)
Theorem get_safe_moves_exact (body : Body) :
  well_formed body →
  (∀ d nx ny, (d, nx, ny) ∈ get_safe_moves body
              ↔ destination body d = Some (nx, ny)
                ∧ safe_destination body (nx, ny))
  ∧ sublist (get_safe_moves body) (candidates body).
Proof.
  intros _. rewrite get_safe_moves_filter. split.
  - intros d nx ny.
    rewrite list_elem_of_filter, kept_spec, destination_candidates. tauto.
  - apply sublist_filter.
Qed.

(** ** Linear scans *)

Lemma is_first_min_unique {A} (f : A → Z) (l : list A) (x y : A) :
  is_first_min f l x → is_first_min f l y → x = y.
Proof.
  intros (i & Hi & Hmin & Hfirst) (j & Hj & Hmin' & Hfirst').
  destruct (Nat.lt_trichotomy i j) as [Hlt|[->|Hlt]].
  - specialize (Hfirst' i x Hi Hlt). specialize (Hmin j y Hj). lia.
  - congruence.
  - specialize (Hfirst j y Hj Hlt). specialize (Hmin' i x Hi). lia.
Qed.

Lemma is_first_max_unique {A} (f : A → Z) (l : list A) (x y : A) :
  is_first_max f l x → is_first_max f l y → x = y.
Proof.
  intros (i & Hi & Hmax & Hfirst) (j & Hj & Hmax' & Hfirst').
  destruct (Nat.lt_trichotomy i j) as [Hlt|[->|Hlt]].
  - specialize (Hfirst' i x Hi Hlt). specialize (Hmax j y Hj). lia.
  - congruence.
  - specialize (Hfirst j y Hj Hlt). specialize (Hmax' i x Hi). lia.
Qed.

Lemma scan_spec {A B} (f : A → Z) (g : A → B) (l : list A) :
  l ≠ [] →
  ∃ x, is_first_min f l x
       ∧ foldl (scan_step f g) (None, None) l = (Some (g x), Some (f x)).
Proof.
  induction l as [|y l IH] using rev_ind; [done|]. intros _.
  rewrite foldl_app. simpl.
  destruct l as [|z l].
  - exists y. split; [|done]. exists 0%nat. split_and!; [done|..].
    + intros [|j] y' [= <-]; lia.
    + intros j y' _ Hj. lia.
  - destruct (IH ltac:(done)) as (x & (i & Hi & Hmin & Hfirst) & ->).
    unfold scan_step. simpl. case_bool_decide as Hlt.
    + exists y. split; [|done]. exists (length (z :: l)).
      split_and!.
      * exact (list_lookup_middle (z :: l) [] y _ eq_refl).
      * intros j y' [Hj|[_ Hj]]%(lookup_app_Some (z :: l)).
        -- specialize (Hmin j y' Hj). lia.
        -- destruct (j - length (z :: l))%nat; [|done].
           injection Hj as <-. lia.
      * intros j y' Hj Hjlt.
        apply (lookup_app_Some (z :: l)) in Hj as [Hj|[Hge _]]; [|lia].
        specialize (Hmin j y' Hj). lia.
    + exists x. split; [|done]. exists i. split_and!.
      * apply (lookup_app_l_Some (z :: l)), Hi.
      * intros j y' [Hj|[_ Hj]]%(lookup_app_Some (z :: l));
          [by eapply Hmin|].
        destruct (j - length (z :: l))%nat; [|done].
        injection Hj as <-. lia.
      * intros j y' Hj Hjlt. apply lookup_lt_Some in Hi.
        apply (lookup_app_Some (z :: l)) in Hj as [Hj|[Hge _]]; [|lia].
        by eapply Hfirst.
Qed.

Lemma find_nearest_food_spec (head_x head_y : Z) (food_list : list Point) :
  food_list ≠ [] →
  ∃ food,
    find_nearest_food head_x head_y food_list = Some food
    ∧ is_first_min (λ p, Z.abs (px p - head_x) + Z.abs (py p - head_y))
                   food_list food.
Proof.
  intros Hne.
  destruct (scan_spec (λ p, Z.abs (px p - head_x) + Z.abs (py p - head_y))
              id food_list Hne) as (food & Hmin & Hfold).
  exists food. split; [|done].
  unfold find_nearest_food. destruct food_list; [done|].
  change (nearest_step head_x head_y)
    with (scan_step (λ p, Z.abs (px p - head_x) + Z.abs (py p - head_y))
            (@id Point)).
  by rewrite Hfold.
Qed.

Lemma get_move_toward_target_spec (head_x head_y target_x target_y : Z)
    (move_options : list ScoredMove) :
  move_options ≠ [] →
  ∃ m,
    get_move_toward_target head_x head_y target_x target_y move_options
    = Some (sm_name m)
    ∧ is_first_min (λ m, Z.abs (target_x - sm_x m) + Z.abs (target_y - sm_y m))
                   move_options m.
Proof.
  intros Hne.
  destruct (scan_spec
              (λ m, Z.abs (target_x - sm_x m) + Z.abs (target_y - sm_y m))
              sm_name move_options Hne) as (m & Hmin & Hfold).
  exists m. split; [|done].
  unfold get_move_toward_target.
  change (toward_step target_x target_y)
    with (scan_step
            (λ m, Z.abs (target_x - sm_x m) + Z.abs (target_y - sm_y m))
            sm_name).
  by rewrite Hfold.
Qed.

Lemma py_max_spec {A} (key : A → Z) (seq : list A) :
  seq ≠ [] → ∃ x, py_max key seq = Some x ∧ is_first_max key seq x.
Proof.
  destruct seq as [|x0 rest]; [done|]. intros _. simpl.
  eexists. split; [done|].
  induction rest as [|y rest IH] using rev_ind; simpl.
  - exists 0%nat. split_and!; [done|..].
    + intros [|j] y' [= <-]; lia.
    + intros j y' _ Hj. lia.
  - rewrite foldl_app. simpl.
    destruct IH as (i & Hi & Hmax & Hfirst).
    set (best := foldl _ x0 rest) in *.
    case_bool_decide as Hlt.
    + exists (length (x0 :: rest)). split_and!.
      * exact (list_lookup_middle (x0 :: rest) [] y _ eq_refl).
      * intros j y' [Hj|[_ Hj]]%(lookup_app_Some (x0 :: rest)).
        -- specialize (Hmax j y' Hj). lia.
        -- destruct (j - length (x0 :: rest))%nat; [|done].
           injection Hj as <-. lia.
      * intros j y' Hj Hjlt.
        apply (lookup_app_Some (x0 :: rest)) in Hj as [Hj|[Hge _]]; [|lia].
        specialize (Hmax j y' Hj). lia.
    + exists i. split_and!.
      * apply (lookup_app_l_Some (x0 :: rest)), Hi.
      * intros j y' [Hj|[_ Hj]]%(lookup_app_Some (x0 :: rest));
          [by eapply Hmax|].
        destruct (j - length (x0 :: rest))%nat; [|done].
        injection Hj as <-. lia.
      * intros j y' Hj Hjlt. apply lookup_lt_Some in Hi.
        apply (lookup_app_Some (x0 :: rest)) in Hj as [Hj|[Hge _]]; [|lia].
        by eapply Hfirst.
Qed.

(** ** Scoring and selection *)

Lemma evaluate_move_space_total (nx ny w h : Z) (obs : gset Cell) :
  is_Some (evaluate_move_space nx ny w h obs).
Proof. apply fill_loop_total. simpl. lia. Qed.

Lemma scored_moves_spec (body : Body) :
  ∃ ms, scored_moves body = Some ms
        ∧ fst <$> ms = get_safe_moves body
        ∧ Forall (scored_by body) ms.
Proof.
  unfold scored_moves. induction (get_safe_moves body) as [|m l IH].
  - exists []. by split_and!.
  - destruct IH as (ms & Hms & Hfst & Hsc).
    destruct (evaluate_move_space_total m.1.2 m.2
                (board_width (body_board body))
                (board_height (body_board body)) (space_obstacles body))
      as [n Hn].
    exists ((m, n) :: ms). split_and!.
    + simpl. rewrite Hms. unfold score_move. rewrite Hn. simpl.
      by destruct m as [[? ?] ?].
    + rewrite fmap_cons. f_equal. exact Hfst.
    + constructor; [|done]. by destruct m as [[? ?] ?].
Qed.

Lemma retained_roomy (move_scores : list ScoredMove) :
  retained move_scores
  = match roomy move_scores with [] => move_scores | _ => roomy move_scores end.
Proof. reflexivity. Qed.

Lemma retained_sublist (move_scores : list ScoredMove) :
  sublist (retained move_scores) move_scores.
Proof.
  rewrite retained_roomy. pose proof (sublist_filter (λ m, 5 ≤ sm_space m)
                                        move_scores) as Hsub.
  unfold roomy. by destruct (filter _ move_scores).
Qed.

Lemma retained_nonempty (move_scores : list ScoredMove) :
  move_scores ≠ [] → retained move_scores ≠ [].
Proof. rewrite retained_roomy. by destruct (roomy move_scores). Qed.

(** Every scored candidate is a safe candidate with its own name,
    destination and score. *)
Lemma scored_candidate (body : Body) (ms : list ScoredMove)
    (s : ScoredMove) :
  scored_moves body = Some ms → s ∈ ms →
  sm_name s ∈ directions
  ∧ destination body (sm_name s) = Some (sm_x s, sm_y s)
  ∧ safe_destination body (sm_x s, sm_y s)
  ∧ scored_by body s.
Proof.
  intros Hms Hs.
  destruct (scored_moves_spec body) as (ms' & Hms' & Hfst & Hsc).
  assert (ms' = ms) as -> by congruence.
  assert (Hsafe : s.1 ∈ get_safe_moves body).
  { rewrite <- Hfst. by apply list_elem_of_fmap_2. }
  rewrite get_safe_moves_filter in Hsafe.
  apply list_elem_of_filter in Hsafe as [Hkept Hcand].
  destruct s as [[[d nx] ny] sp]. simpl in *.
  apply kept_spec in Hkept. apply destination_candidates in Hcand.
  unfold sm_name, sm_x, sm_y. simpl. split_and!; [|done|done|].
  - unfold destination in Hcand. unfold directions.
    repeat (case_decide; [subst; set_solver|]). done.
  - rewrite Forall_forall in Hsc. by apply (Hsc (d, nx, ny, sp)).
Qed.

Lemma choose_best_move_safe (draw : nat) (body : Body)
    (ms : list ScoredMove) :
  get_safe_moves body ≠ [] → scored_moves body = Some ms →
  choose_best_move draw body
  = match food_branch body (retained ms) with
    | Some food_move => Some food_move
    | None => sm_name <$> py_max sm_space (retained ms)
    end.
Proof.
  intros Hsafe Hms. unfold choose_best_move.
  destruct (get_safe_moves body); [done|].
  rewrite Hms. simpl. destruct (food_branch body (retained ms)); [done|].
  by destruct (py_max sm_space (retained ms)).
Qed.

Lemma food_branch_hungry (body : Body) (good_moves : list ScoredMove) :
  seeks_food body → good_moves ≠ [] →
  Forall (λ s, sm_name s ∈ directions) good_moves →
  ∃ c, food_choice body good_moves c
       ∧ food_branch body good_moves = Some (sm_name c).
Proof.
  intros [Hhealth Hfood] Hgood Hnames. unfold food_branch.
  rewrite bool_decide_eq_true_2, bool_decide_eq_false_2 by done. simpl.
  destruct (find_nearest_food_spec (px (snake_head (body_you body)))
              (py (snake_head (body_you body)))
              (board_food (body_board body)) Hfood) as (food & -> & Hnear).
  destruct (get_move_toward_target_spec (px (snake_head (body_you body)))
              (py (snake_head (body_you body))) (px food) (py food)
              good_moves Hgood) as (c & -> & Hmin).
  exists c. split; [by exists food|].
  assert (Hc : sm_name c ∈ directions).
  { destruct Hmin as (i & Hi & _). rewrite Forall_forall in Hnames.
    eapply Hnames, list_elem_of_lookup_2, Hi. }
  unfold directions in Hc.
  repeat (apply elem_of_cons in Hc as [->|Hc]; [done|]).
  by apply elem_of_nil in Hc.
Qed.

Lemma food_branch_idle (body : Body) (good_moves : list ScoredMove) :
  ¬ seeks_food body → food_branch body good_moves = None.
Proof.
  intros Hidle. unfold food_branch, seeks_food in *.
  destruct (bool_decide (snake_health (body_you body) < 30)
            && negb (bool_decide (board_food (body_board body) = [])))
    eqn:Hcond; [|done].
  apply andb_prop in Hcond as [Hh Hf].
  apply bool_decide_eq_true in Hh. apply negb_true_iff in Hf.
  apply bool_decide_eq_false in Hf. tauto.
Qed.

Lemma retained_space_choice (ms : list ScoredMove) (c : ScoredMove) :
  is_first_max sm_space (retained ms) c ↔ space_choice ms c.
Proof.
  rewrite retained_roomy. unfold space_choice.
  destruct (roomy ms) eqn:Hr; [|rewrite <- Hr in *]; split.
  - intros ?. by right.
  - intros [[? _]|[_ ?]]; done.
  - intros ?. left. split; [|done]. rewrite Hr. done.
  - intros [[_ ?]|[Hnil _]]; [done|]. rewrite Hr in Hnil. done.
Qed.

(** With a safe move the selector returns the name of a retained
    candidate: the food choice when hungry, the space choice otherwise. *)
Lemma choose_best_move_main (body : Body) :
  get_safe_moves body ≠ [] →
  ∃ ms c,
    scored_moves body = Some ms
    ∧ c ∈ ms
    ∧ (∀ draw, choose_best_move draw body = Some (sm_name c))
    ∧ (seeks_food body → food_choice body (retained ms) c)
    ∧ (¬ seeks_food body → space_choice ms c).
Proof.
  intros Hsafe.
  destruct (scored_moves_spec body) as (ms & Hms & Hfst & Hsc).
  assert (Hne : ms ≠ []).
  { intros ->. by rewrite fmap_nil in Hfst. }
  pose proof (retained_nonempty ms Hne) as Hgood.
  pose proof (retained_sublist ms) as Hsub.
  exists ms.
  destruct (decide (seeks_food body)) as [Hseek|Hidle].
  - destruct (food_branch_hungry body (retained ms) Hseek Hgood)
      as (c & Hchoice & Hbranch).
    { apply Forall_forall. intros s Hs.
      eapply scored_candidate; [done|]. eapply elem_of_sublist; done. }
    exists c. split_and!; [done| | |done|done].
    + destruct Hchoice as (_ & _ & i & Hi & _).
      eapply elem_of_sublist; [|done]. eapply list_elem_of_lookup_2, Hi.
    + intros draw. by rewrite (choose_best_move_safe draw body ms), Hbranch.
  - destruct (py_max_spec sm_space (retained ms) Hgood) as (c & Hmax & Hc).
    exists c. split_and!; [done| | |done|].
    + destruct Hc as (i & Hi & _).
      eapply elem_of_sublist; [|done]. eapply list_elem_of_lookup_2, Hi.
    + intros draw.
      rewrite (choose_best_move_safe draw body ms), food_branch_idle, Hmax;
        done.
    + intros _. by apply retained_space_choice.
Qed.

(** ** The sample snapshots *)

Lemma trapped_well_formed : well_formed trapped.
Proof.
  apply (bool_decide_unpack (well_formed trapped)). vm_compute. exact I.
Qed.

Lemma trapped_hungry_well_formed : well_formed trapped_hungry.
Proof.
  apply (bool_decide_unpack (well_formed trapped_hungry)).
  vm_compute. exact I.
Qed.

Lemma pocket_hungry_well_formed : well_formed pocket_hungry.
Proof.
  apply (bool_decide_unpack (well_formed pocket_hungry)).
  vm_compute. exact I.
Qed.

Lemma pocket_healthy_well_formed : well_formed pocket_healthy.
Proof.
  apply (bool_decide_unpack (well_formed pocket_healthy)).
  vm_compute. exact I.
Qed.

Example trapped_safe_moves : get_safe_moves trapped = [].
Proof. vm_compute. reflexivity. Qed.

Example trapped_choices :
  (λ draw, choose_best_move draw trapped) <$> [0; 1; 2; 3; 4]%nat
  = Some <$> ["up"; "down"; "left"; "right"; "up"].
Proof. vm_compute. reflexivity. Qed.

Example pocket_scores :
  scored_moves pocket_hungry
  = Some [("left", 1, 0, 6); ("right", 3, 0, 50)].
Proof. vm_compute. reflexivity. Qed.

(** Food priority: hungry, the food two cells away, both candidates
    with a score of at least 5: the selector goes left to the food
    although right has the larger score. *)
Example pocket_hungry_choice :
  choose_best_move 0 pocket_hungry = Some "left".
Proof. vm_compute. reflexivity. Qed.

(** Space priority when healthy: the same board at health 100. *)
Example pocket_healthy_choice :
  choose_best_move 0 pocket_healthy = Some "right".
Proof. vm_compute. reflexivity. Qed.

Lemma get_safe_moves_exact_witness :
  well_formed pocket_hungry
  ∧ get_safe_moves pocket_hungry = [("left", 1, 0); ("right", 3, 0)]
  ∧ (("up", 2, 1) ∈ get_safe_moves pocket_hungry
     ↔ destination pocket_hungry "up" = Some (2, 1)
       ∧ safe_destination pocket_hungry (2, 1)).
Proof.
  split_and!; [exact pocket_hungry_well_formed|reflexivity|].
  exact (proj1 (get_safe_moves_exact pocket_hungry pocket_hungry_well_formed)
           "up" 2 1).
Defined.

(** ** The claims about the move selector *)

Lemma random_choice_direction (draw : nat) :
  ∃ d, random_choice draw ["up"; "down"; "left"; "right"] = Some d
       ∧ d ∈ directions.
Proof.
  unfold random_choice, directions. simpl length.
  pose proof (Nat.mod_upper_bound draw 4 ltac:(done)) as Hlt.
  destruct (draw mod 4)%nat as [|[|[|[|n]]]]; [..|lia];
    eexists; (split; [reflexivity|set_solver]).
Qed.

Lemma safe_destination_safe_move (body : Body) (d : string) (c : Cell) :
  destination body d = Some c → safe_destination body c →
  get_safe_moves body ≠ [].
Proof.
  intros Hdest Hsafe Hnil. destruct c as [nx ny].
  assert (Hin : (d, nx, ny) ∈ get_safe_moves body).
  { rewrite get_safe_moves_filter. apply list_elem_of_filter.
    split; [by apply kept_spec|by apply destination_candidates]. }
  rewrite Hnil in Hin. by apply elem_of_nil in Hin.
Qed.

Lemma scored_names_ordered (body : Body) (ms : list ScoredMove) :
  scored_moves body = Some ms → sublist (sm_name <$> ms) directions.
Proof.
  intros Hms.
  destruct (scored_moves_spec body) as (ms' & Hms' & Hfst & _).
  assert (ms' = ms) as -> by congruence.
  replace (sm_name <$> ms) with ((λ m : SafeMove, m.1.1) <$> (fst <$> ms))
    by (by rewrite <- list_fmap_compose).
  rewrite Hfst, get_safe_moves_filter.
  change directions with ((λ m : SafeMove, m.1.1) <$> candidates body).
  apply fmap_sublist, sublist_filter.
Qed.

(** C4: for every well-formed snapshot and every draw of the random
    source, the selector returns one of up, down, left, right; with no
    safe move as well. *)
Theorem choose_best_move_always_answers (draw : nat) (body : Body) :
  well_formed body →
  ∃ d, choose_best_move draw body = Some d ∧ d ∈ directions.
Proof.
  intros _. destruct (decide (get_safe_moves body = [])) as [Hnil|Hsafe].
  - unfold choose_best_move. rewrite Hnil. apply random_choice_direction.
  - destruct (choose_best_move_main body Hsafe)
      as (ms & c & Hms & Hc & Hchoose & _).
    exists (sm_name c). split; [apply Hchoose|].
    by eapply scored_candidate.
Qed.

Lemma choose_best_move_always_answers_witness :
  well_formed trapped
  ∧ get_safe_moves trapped = []
  ∧ ∃ d, choose_best_move 2 trapped = Some d ∧ d ∈ directions.
Proof.
  split_and!; [exact trapped_well_formed|reflexivity|].
  exact (choose_best_move_always_answers 2 trapped trapped_well_formed).
Defined.

(** C6: when the safety filter returns at least one candidate, the
    selector returns one direction whatever the random source draws. *)
Theorem choose_best_move_deterministic (body : Body) :
  get_safe_moves body ≠ [] →
  ∃ d, ∀ draw, choose_best_move draw body = Some d.
Proof.
  intros Hsafe.
  destruct (choose_best_move_main body Hsafe)
    as (ms & c & _ & _ & Hchoose & _).
  by exists (sm_name c).
Qed.

Lemma choose_best_move_deterministic_witness :
  get_safe_moves solo ≠ []
  ∧ ∃ d, ∀ draw, choose_best_move draw solo = Some d.
Proof.
  assert (Hsafe : get_safe_moves solo ≠ []) by (vm_compute; discriminate).
  split; [exact Hsafe|].
  exact (choose_best_move_deterministic solo Hsafe).
Defined.

(** C8: for a well-formed snapshot with at least one safe move, the
    destination of the returned direction is on the board. *)
Theorem choose_best_move_in_bounds (draw : nat) (body : Body) :
  well_formed body → get_safe_moves body ≠ [] →
  ∃ d c, choose_best_move draw body = Some d
         ∧ destination body d = Some c
         ∧ in_bounds body c.
Proof.
  intros _ Hsafe.
  destruct (choose_best_move_main body Hsafe)
    as (ms & c & Hms & Hc & Hchoose & _).
  destruct (scored_candidate body ms c Hms Hc) as (_ & Hdest & [Hin _] & _).
  exists (sm_name c), (sm_x c, sm_y c). by split_and!.
Qed.

Lemma choose_best_move_in_bounds_witness :
  well_formed pocket_hungry
  ∧ get_safe_moves pocket_hungry ≠ []
  ∧ ∃ d c, choose_best_move 3 pocket_hungry = Some d
           ∧ destination pocket_hungry d = Some c
           ∧ in_bounds pocket_hungry c.
Proof.
  assert (Hsafe : get_safe_moves pocket_hungry ≠ [])
    by (vm_compute; discriminate).
  split_and!; [exact pocket_hungry_well_formed|exact Hsafe|].
  exact (choose_best_move_in_bounds 3 pocket_hungry
           pocket_hungry_well_formed Hsafe).
Defined.

(** C1 as stated fails: in [trapped] the move up leads to a cell on the
    board that is no obstacle, yet no move is safe and the selector,
    drawing 1, goes down into the acting snake's own body. *)
Lemma choose_best_move_may_hit_obstacle :
  ¬ (∀ draw body,
       well_formed body →
       (∃ d c, destination body d = Some c ∧ ¬ is_obstacle body c) →
       ∀ d c, choose_best_move draw body = Some d →
              destination body d = Some c → ¬ is_obstacle body c).
Proof.
  intros Hclaim.
  apply (Hclaim 1%nat trapped trapped_well_formed) with (d := "down")
                                                       (c := (5, 4)).
  - exists "up", (5, 6). split; [reflexivity|].
    rewrite <- all_snake_bodies_spec.
    apply (bool_decide_unpack ((5, 6) ∉ all_snake_bodies trapped)).
    vm_compute. exact I.
  - vm_compute. reflexivity.
  - reflexivity.
  - apply all_snake_bodies_spec.
    apply (bool_decide_unpack ((5, 4) ∈ all_snake_bodies trapped)).
    vm_compute. exact I.
Qed.

(** C1, amended: for a well-formed snapshot in which at least one
    candidate destination is on the board, avoids the obstacle set and
    is no risky head-to-head, the destination of the returned direction
    is not in the obstacle set. *)
Theorem choose_best_move_avoids_obstacles (draw : nat) (body : Body) :
  well_formed body →
  (∃ d c, destination body d = Some c ∧ safe_destination body c) →
  ∃ d c, choose_best_move draw body = Some d
         ∧ destination body d = Some c
         ∧ ¬ is_obstacle body c.
Proof.
  intros _ (d0 & c0 & Hdest0 & Hsafe0).
  pose proof (safe_destination_safe_move body d0 c0 Hdest0 Hsafe0) as Hsafe.
  destruct (choose_best_move_main body Hsafe)
    as (ms & c & Hms & Hc & Hchoose & _).
  destruct (scored_candidate body ms c Hms Hc)
    as (_ & Hdest & (_ & Hobs & _) & _).
  exists (sm_name c), (sm_x c, sm_y c). by split_and!.
Qed.

Lemma solo_up_safe :
  destination solo "up" = Some (5, 6) ∧ safe_destination solo (5, 6).
Proof.
  split; [reflexivity|].
  apply (kept_spec solo ("up", 5, 6)). vm_compute. reflexivity.
Qed.

Lemma choose_best_move_avoids_obstacles_witness :
  well_formed solo
  ∧ (∃ d c, destination solo d = Some c ∧ safe_destination solo c)
  ∧ ∃ d c, choose_best_move 7 solo = Some d
           ∧ destination solo d = Some c
           ∧ ¬ is_obstacle solo c.
Proof.
  assert (Hex : ∃ d c, destination solo d = Some c ∧ safe_destination solo c)
    by (exists "up", (5, 6); exact solo_up_safe).
  split_and!; [exact solo_well_formed|exact Hex|].
  exact (choose_best_move_avoids_obstacles 7 solo solo_well_formed Hex).
Defined.

(** ** The obstacle set of the space evaluator *)

Lemma space_obstacles_spec (body : Body) (c : Cell) :
  c ∈ space_obstacles body ↔ is_segment body c.
Proof.
  unfold space_obstacles, is_segment.
  assert (Hseg : ∀ (l : list Point) (a : gset Cell),
    c ∈ foldl (λ acc segment, {[ cell_of segment ]} ∪ acc) a l
    ↔ c ∈ a ∨ ∃ p, p ∈ l ∧ cell_of p = c).
  { induction l as [|p l IH]; intros a; simpl.
    - set_solver.
    - rewrite IH. set_solver. }
  assert (Hfold : ∀ (snakes : list Snake) (a : gset Cell),
    c ∈ foldl add_segments a snakes
    ↔ c ∈ a ∨ ∃ snake p, snake ∈ snakes ∧ p ∈ snake_body snake
                          ∧ cell_of p = c).
  { induction snakes as [|s snakes IH]; intros a; simpl.
    - set_solver.
    - rewrite IH. unfold add_segments at 1. rewrite Hseg. split.
      + intros [[?|(p & ? & ?)]|(s' & p & ? & ?)];
          [by left|right; exists s, p; set_solver
          |right; exists s', p; set_solver].
      + intros [?|(s' & p & [->|?]%elem_of_cons & ?)];
          [left; by left|left; right; eauto|right; eauto 6]. }
  rewrite Hfold. set_solver.
Qed.

(** C2 as stated fails: the tail (5,3) of the snake of [solo] is an
    obstacle of the space evaluator and none of the safety filter. *)
Lemma space_obstacles_keep_tails :
  ¬ (∀ body, well_formed body →
             space_obstacles body = all_snake_bodies body
             ∧ ∀ c, c ∈ space_obstacles body ↔ is_obstacle body c).
Proof.
  intros Hclaim. destruct (Hclaim solo solo_well_formed) as [Heq _].
  assert (Hin : (5, 3) ∈ space_obstacles solo).
  { apply (bool_decide_unpack ((5, 3) ∈ space_obstacles solo)).
    vm_compute. exact I. }
  rewrite Heq in Hin. revert Hin.
  apply (bool_decide_unpack ((5, 3) ∉ all_snake_bodies solo)).
  vm_compute. exact I.
Qed.

(** C2, amended: the obstacle set given to the space evaluator is the
    union over all snakes of every body segment, last segments included;
    it contains the obstacle set of the safety filter. *)
Theorem space_obstacles_all_segments (body : Body) :
  well_formed body →
  (∀ ms, scored_moves body = Some ms → Forall (scored_by body) ms)
  ∧ (∀ c, c ∈ space_obstacles body ↔ is_segment body c)
  ∧ all_snake_bodies body ⊆ space_obstacles body.
Proof.
  intros _. split_and!.
  - intros ms Hms.
    destruct (scored_moves_spec body) as (ms' & Hms' & _ & Hsc). congruence.
  - apply space_obstacles_spec.
  - intros c. rewrite all_snake_bodies_spec, space_obstacles_spec.
    intros (s & i & p & Hs & Hp & _ & Hc). exists s, p.
    split_and!; [done| |done]. eapply list_elem_of_lookup_2, Hp.
Qed.

Lemma space_obstacles_all_segments_witness :
  well_formed solo
  ∧ ((5, 3) ∈ space_obstacles solo ↔ is_segment solo (5, 3))
  ∧ all_snake_bodies solo ⊆ space_obstacles solo.
Proof.
  destruct (space_obstacles_all_segments solo solo_well_formed)
    as (_ & Hseg & Hsub).
  split_and!; [exact solo_well_formed|exact (Hseg (5, 3))|exact Hsub].
Defined.

(** The two sets give different scores: with the safety filter's set
    the pocket on the left of [pocket_hungry] would leak through the
    two tails. *)
Example pocket_score_without_tails :
  evaluate_move_space 1 0 11 11 (space_obstacles pocket_hungry) = Some 6
  ∧ evaluate_move_space 1 0 11 11 (all_snake_bodies pocket_hungry) = Some 50.
Proof. split; vm_compute; reflexivity. Qed.

(** ** Food seeking and space maximisation *)

(** C7 as stated fails: [trapped_hungry] is well-formed, hungry and has
    food, but it has no candidate, so the returned direction is the
    random one and not that of a candidate closest to the food. *)
Lemma food_seeking_needs_safe_move :
  ¬ (∀ draw body,
       well_formed body → seeks_food body →
       ∃ ms c, scored_moves body = Some ms
               ∧ food_choice body (retained ms) c
               ∧ choose_best_move draw body = Some (sm_name c)).
Proof.
  intros Hclaim.
  destruct (Hclaim 0%nat trapped_hungry trapped_hungry_well_formed)
    as (ms & c & Hms & (food & _ & i & Hi & _) & _).
  { split; [vm_compute; reflexivity|discriminate]. }
  assert (Hnone : scored_moves trapped_hungry = Some [])
    by (vm_compute; reflexivity).
  assert (ms = []) as -> by congruence.
  change (retained []) with (@nil ScoredMove) in Hi.
  by rewrite lookup_nil in Hi.
Qed.

(** C7, amended: for a well-formed snapshot with health below 30, a
    non-empty food list and at least one safe move, the selector returns
    the direction of the retained candidate (score at least 5 if any
    has, all otherwise) whose destination is closest to the nearest
    food, first minimum in both scans, whatever the space scores of the
    retained candidates are. *)
Theorem choose_best_move_seeks_food (body : Body) :
  well_formed body → seeks_food body → get_safe_moves body ≠ [] →
  ∃ ms c, scored_moves body = Some ms
          ∧ food_choice body (retained ms) c
          ∧ ∀ draw, choose_best_move draw body = Some (sm_name c).
Proof.
  intros _ Hseek Hsafe.
  destruct (choose_best_move_main body Hsafe)
    as (ms & c & Hms & _ & Hchoose & Hfood & _).
  exists ms, c. split_and!; [done|by apply Hfood|done].
Qed.

Lemma pocket_hungry_seeks_food : seeks_food pocket_hungry.
Proof. split; [vm_compute; reflexivity|discriminate]. Qed.

Lemma choose_best_move_seeks_food_witness :
  well_formed pocket_hungry
  ∧ seeks_food pocket_hungry
  ∧ get_safe_moves pocket_hungry ≠ []
  ∧ ∃ ms c, scored_moves pocket_hungry = Some ms
            ∧ food_choice pocket_hungry (retained ms) c
            ∧ ∀ draw, choose_best_move draw pocket_hungry = Some (sm_name c).
Proof.
  assert (Hsafe : get_safe_moves pocket_hungry ≠ [])
    by (vm_compute; discriminate).
  split_and!;
    [exact pocket_hungry_well_formed|exact pocket_hungry_seeks_food
    |exact Hsafe|].
  exact (choose_best_move_seeks_food pocket_hungry pocket_hungry_well_formed
           pocket_hungry_seeks_food Hsafe).
Defined.

(** C9 as stated fails: [trapped] takes no food branch, and there is no
    retained candidate whose direction the selector could return. *)
Lemma space_choice_needs_safe_move :
  ¬ (∀ draw body,
       well_formed body → ¬ seeks_food body →
       ∃ ms c, scored_moves body = Some ms
               ∧ space_choice ms c
               ∧ choose_best_move draw body = Some (sm_name c)).
Proof.
  intros Hclaim.
  destruct (Hclaim 0%nat trapped trapped_well_formed)
    as (ms & c & Hms & Hchoice & _).
  { intros [_ Hfood]. by apply Hfood. }
  assert (Hnone : scored_moves trapped = Some [])
    by (vm_compute; reflexivity).
  assert (ms = []) as -> by congruence.
  destruct Hchoice as [[Hne _]|[_ (i & Hi & _)]]; [by apply Hne|].
  by rewrite lookup_nil in Hi.
Qed.

(** C9, amended: for a well-formed snapshot with at least one safe move
    in which the food branch is not taken, the selector returns the
    direction of the candidate with the greatest space score among those
    of score at least 5 or, if there is none, among all scored safe
    candidates; the candidates stand in the order up, down, left, right
    and the first one with the greatest score wins. *)
Theorem choose_best_move_max_space (body : Body) :
  well_formed body → ¬ seeks_food body → get_safe_moves body ≠ [] →
  ∃ ms c, scored_moves body = Some ms
          ∧ sublist (sm_name <$> ms) directions
          ∧ space_choice ms c
          ∧ ∀ draw, choose_best_move draw body = Some (sm_name c).
Proof.
  intros _ Hidle Hsafe.
  destruct (choose_best_move_main body Hsafe)
    as (ms & c & Hms & _ & Hchoose & _ & Hspace).
  exists ms, c.
  split_and!; [done|by apply (scored_names_ordered body)|by apply Hspace|done].
Qed.

Lemma pocket_healthy_idle : ¬ seeks_food pocket_healthy.
Proof. intros [Hhealth _]. vm_compute in Hhealth. discriminate. Qed.

Lemma choose_best_move_max_space_witness :
  well_formed pocket_healthy
  ∧ ¬ seeks_food pocket_healthy
  ∧ get_safe_moves pocket_healthy ≠ []
  ∧ ∃ ms c, scored_moves pocket_healthy = Some ms
            ∧ sublist (sm_name <$> ms) directions
            ∧ space_choice ms c
            ∧ ∀ draw, choose_best_move draw pocket_healthy = Some (sm_name c).
Proof.
  assert (Hsafe : get_safe_moves pocket_healthy ≠ [])
    by (vm_compute; discriminate).
  split_and!;
    [exact pocket_healthy_well_formed|exact pocket_healthy_idle
    |exact Hsafe|].
  exact (choose_best_move_max_space pocket_healthy pocket_healthy_well_formed
           pocket_healthy_idle Hsafe).
Defined.

(** * Further properties

    ** The component of the start cell exists *)

Section Component.
Context (w h : Z) (obs : gset Cell) (start : Cell).

Lemma elem_of_board_cells (c : Cell) :
  c ∈ board_cells w h ↔ 0 ≤ c.1 < w ∧ 0 ≤ c.2 < h.
Proof.
  unfold board_cells. rewrite elem_of_list_to_set, list_elem_of_bind.
  destruct c as [x y]. simpl. split.
  - intros (x' & Hy & Hx). apply list_elem_of_fmap in Hy as (y' & [= -> ->] & Hy).
    apply elem_of_seqZ in Hx, Hy. lia.
  - intros [Hx Hy]. exists x. split.
    + apply list_elem_of_fmap. exists y. split; [done|].
      apply elem_of_seqZ. lia.
    + apply elem_of_seqZ. lia.
Qed.

Lemma elem_of_free_neighbours (c c' : Cell) :
  c' ∈ free_neighbours w h obs c ↔ fill_edge w h obs c c'.
Proof.
  unfold free_neighbours, fill_edge.
  rewrite list_elem_of_filter, adjacent_offsets, list_elem_of_fmap.
  naive_solver.
Qed.

Lemma elem_of_grow (V : gset Cell) (c' : Cell) :
  c' ∈ grow w h obs V ↔ c' ∈ V ∨ ∃ c, c ∈ V ∧ fill_edge w h obs c c'.
Proof.
  unfold grow.
  rewrite elem_of_union, elem_of_list_to_set, list_elem_of_bind.
  setoid_rewrite elem_of_free_neighbours.
  setoid_rewrite elem_of_elements. naive_solver.
Qed.

Lemma grow_iter_reachable (n : nat) (c : Cell) :
  c ∈ grow_n w h obs start n → reachable w h obs start c.
Proof.
  revert c. induction n as [|n IH]; intros c; cbn [grow_n].
  - intros ->%elem_of_singleton. apply rtc_refl.
  - intros [Hc|(c0 & Hc0 & Hedge)]%elem_of_grow; [by apply IH|].
    eapply rtc_r; [by apply IH|done].
Qed.

Lemma grow_iter_bounded (n : nat) :
  grow_n w h obs start n ⊆ {[ start ]} ∪ board_cells w h.
Proof.
  induction n as [|n IH]; cbn [grow_n]; [set_solver|].
  intros c [Hc|(c0 & _ & _ & Hx & Hy & _)]%elem_of_grow; [by apply IH|].
  apply elem_of_union. right. by apply elem_of_board_cells.
Qed.

(** Growth either has stopped or has added a cell at every step. *)
Lemma grow_iter_progress (n : nat) :
  grow w h obs (grow_n w h obs start n)
  = grow_n w h obs start n
  ∨ (n < size (grow_n w h obs start n))%nat.
Proof.
  induction n as [|n IH]; cbn [grow_n].
  - right. rewrite size_singleton. lia.
  - destruct IH as [Hstable|Hsize]; [left; by rewrite !Hstable|].
    set (V := grow_n w h obs start n) in *.
    destruct (decide (grow w h obs V = V)) as [Hstable|Hgrows];
      [left; by rewrite !Hstable|].
    right. assert (Hsub : V ⊂ grow w h obs V).
    { split; [intros c Hc; apply elem_of_grow; by left|].
      intros Hback. apply Hgrows, set_eq. intros c. split; [apply Hback|].
      intros Hc. apply elem_of_grow. by left. }
    apply subset_size in Hsub. lia.
Qed.

Lemma flood_component_stable :
  grow w h obs (flood_component w h obs start) = flood_component w h obs start.
Proof.
  unfold flood_component.
  destruct (grow_iter_progress (size ({[ start ]} ∪ board_cells w h)))
    as [Hstable|Hsize]; [done|].
  pose proof (subseteq_size _ _
    (grow_iter_bounded (size ({[ start ]} ∪ board_cells w h)))). lia.
Qed.

Lemma flood_component_is_component :
  is_component w h obs start (flood_component w h obs start).
Proof.
  intros c. split; [apply grow_iter_reachable|].
  unfold reachable. revert c. apply rtc_ind_r.
  - unfold flood_component.
    generalize (size ({[ start ]} ∪ board_cells w h)).
    intros n. induction n as [|n IH]; cbn [grow_n]; [set_solver|].
    apply elem_of_grow. by left.
  - intros y z _ Hedge Hy. rewrite <- flood_component_stable.
    apply elem_of_grow. right. eauto.
Qed.
End Component.

Lemma is_component_unique (w h : Z) (obs : gset Cell) (start : Cell)
    (comp comp' : gset Cell) :
  is_component w h obs start comp → is_component w h obs start comp' →
  comp = comp'.
Proof.
  intros Hc Hc'. apply set_eq. intros c. by rewrite (Hc c), (Hc' c).
Qed.

(** ** The space score in closed form *)

Lemma evaluate_move_space_min (nx ny w h : Z) (obs comp : gset Cell) :
  is_component w h obs (nx, ny) comp →
  evaluate_move_space nx ny w h obs = Some (50 `min` Z.of_nat (size comp)).
Proof.
  intros Hcomp. unfold evaluate_move_space.
  destruct (fill_loop_total w h obs (Z.to_nat max_iterations)
              (mkFill {[ (nx, ny) ]} [(nx, ny)] 0)) as [n Hn];
    [simpl; lia|].
  rewrite Hn. f_equal.
  pose proof (fill_loop_bounds w h obs _ _ _ Hn) as [_ Hcap].
  cbn [space] in Hcap. unfold max_iterations in *.
  destruct (fill_loop_component w h obs (nx, ny) _ _ n comp
              (fill_inv_init w h obs (nx, ny))
              ltac:(cbn [space]; unfold max_iterations; lia) Hcomp Hn)
    as [->|[-> Hbig]]; unfold max_iterations in *; lia.
Qed.

(** X1: for every start, board and obstacle set the cells reachable
    from the start form a finite set, and the space evaluator returns
    the smaller of 50 and the number of these cells. *)
Theorem evaluate_move_space_closed_form (nx ny w h : Z) (obs : gset Cell) :
  is_component w h obs (nx, ny) (flood_component w h obs (nx, ny))
  ∧ evaluate_move_space nx ny w h obs
    = Some (50 `min` Z.of_nat (size (flood_component w h obs (nx, ny)))).
Proof.
  split; [apply flood_component_is_component|].
  apply evaluate_move_space_min, flood_component_is_component.
Qed.

Lemma reachable_more_obstacles (w h : Z) (obs obs' : gset Cell)
    (start c : Cell) :
  obs ⊆ obs' → reachable w h obs' start c → reachable w h obs start c.
Proof.
  intros Hsub. apply rtc_subrel.
  intros a b [Hadj (Hx & Hy & Hobs)]. split; [done|].
  split; [done|]. split; [done|]. intros Hin. by apply Hobs, Hsub.
Qed.

(** X2: more obstacles never give a larger space score. *)
Theorem evaluate_move_space_antitone (nx ny w h : Z) (obs obs' : gset Cell) :
  obs ⊆ obs' →
  ∃ n n', evaluate_move_space nx ny w h obs = Some n
          ∧ evaluate_move_space nx ny w h obs' = Some n'
          ∧ n' ≤ n.
Proof.
  intros Hsub.
  pose proof (flood_component_is_component w h obs (nx, ny)) as Hc.
  pose proof (flood_component_is_component w h obs' (nx, ny)) as Hc'.
  rewrite (evaluate_move_space_min nx ny w h obs _ Hc),
    (evaluate_move_space_min nx ny w h obs' _ Hc').
  do 2 eexists. split_and!; [reflexivity|reflexivity|].
  assert (size (flood_component w h obs' (nx, ny))
          ≤ size (flood_component w h obs (nx, ny)))%nat; [|lia].
  apply subseteq_size. intros c Hin. apply Hc.
  eapply reachable_more_obstacles; [done|]. by apply Hc'.
Qed.

Lemma evaluate_move_space_antitone_witness :
  (∅ : gset Cell) ⊆ corner_obstacles
  ∧ ∃ n n', evaluate_move_space 0 0 2 2 ∅ = Some n
            ∧ evaluate_move_space 0 0 2 2 corner_obstacles = Some n'
            ∧ n' ≤ n.
Proof.
  assert (Hsub : (∅ : gset Cell) ⊆ corner_obstacles) by set_solver.
  split; [exact Hsub|].
  exact (evaluate_move_space_antitone 0 0 2 2 ∅ corner_obstacles Hsub).
Defined.

Lemma adjacent_distinct (c c' : Cell) : adjacent c c' → c ≠ c'.
Proof. unfold adjacent. intros Hadj ->. lia. Qed.

(** X3: the space score is 1, the start cell alone, exactly when none
    of the four neighbours of the start is an in-bounds cell free of
    obstacles. *)
Theorem evaluate_move_space_dead_end (nx ny w h : Z) (obs : gset Cell) :
  evaluate_move_space nx ny w h obs = Some 1
  ↔ free_neighbours w h obs (nx, ny) = [].
Proof.
  pose proof (flood_component_is_component w h obs (nx, ny)) as Hc.
  rewrite (evaluate_move_space_min nx ny w h obs _ Hc).
  set (comp := flood_component w h obs (nx, ny)) in *.
  assert (Hstart : (nx, ny) ∈ comp) by (apply Hc, rtc_refl).
  split.
  - intros [= Hmin]. assert (Hsize : size comp = 1%nat) by lia.
    destruct (free_neighbours w h obs (nx, ny)) as [|c l] eqn:Hfree; [done|].
    assert (Hedge : fill_edge w h obs (nx, ny) c).
    { apply elem_of_free_neighbours. rewrite Hfree. by left. }
    assert (Hin : c ∈ comp) by (by apply Hc, rtc_once).
    pose proof (size_singleton_inv comp _ _ Hsize Hstart Hin) as Heq.
    destruct Hedge as [Hadj _]. by apply adjacent_distinct in Hadj.
  - intros Hnone.
    assert (Hone : comp = {[ (nx, ny) ]}).
    { apply set_eq. intros c. rewrite elem_of_singleton. split; [|by intros ->].
      intros Hin%Hc. unfold reachable in Hin.
      apply rtc_inv in Hin as [<-|(c' & Hedge & _)]; [done|].
      apply elem_of_free_neighbours in Hedge. rewrite Hnone in Hedge.
      by apply elem_of_nil in Hedge. }
    rewrite Hone, size_singleton. done.
Qed.

Lemma connected_sym (w h : Z) (obs : gset Cell) (c c' : Cell) :
  connected w h obs c c' → connected w h obs c' c.
Proof.
  unfold connected. induction 1 as [|a b c Hab _ IH]; [apply rtc_refl|].
  eapply rtc_r; [exact IH|].
  destruct Hab as (Hadj & Ha & Hb). split_and!; [|done|done].
  unfold adjacent in *. lia.
Qed.

(** X4: two cells of one region score the same: if the second start
    can be reached from a free first start, the space evaluator returns
    the same value for both. *)
Theorem evaluate_move_space_same_region (w h : Z) (obs : gset Cell)
    (c c' : Cell) :
  free_cell w h obs c → reachable w h obs c c' →
  evaluate_move_space c'.1 c'.2 w h obs = evaluate_move_space c.1 c.2 w h obs.
Proof.
  intros Hfree Hreach.
  assert (Hback : reachable w h obs c' c).
  { destruct (decide (c = c')) as [->|Hne]; [apply rtc_refl|].
    assert (Hfree' : free_cell w h obs c').
    { unfold reachable in Hreach.
      apply rtc_inv_r in Hreach as [?|(b & _ & _ & Hb)]; done. }
    apply reachable_connected; [done|].
    by apply connected_sym, reachable_connected. }
  destruct c as [x y], c' as [x' y']. simpl.
  pose proof (flood_component_is_component w h obs (x, y)) as Hc.
  rewrite (evaluate_move_space_min x y w h obs _ Hc).
  apply evaluate_move_space_min.
  intros a. rewrite (Hc a). unfold reachable in *. split.
  - intros Ha. by etrans.
  - intros Ha. by etrans.
Qed.

Lemma evaluate_move_space_same_region_witness :
  free_cell 2 2 corner_obstacles (0, 0)
  ∧ reachable 2 2 corner_obstacles (0, 0) (1, 1)
  ∧ evaluate_move_space 1 1 2 2 corner_obstacles
    = evaluate_move_space 0 0 2 2 corner_obstacles.
Proof.
  assert (Hfree : free_cell 2 2 corner_obstacles (0, 0)).
  { apply (bool_decide_unpack (free_cell 2 2 corner_obstacles (0, 0))).
    vm_compute. exact I. }
  assert (Hreach : reachable 2 2 corner_obstacles (0, 0) (1, 1)).
  { apply corner_is_component.
    apply (bool_decide_unpack ((1, 1) ∈ corner_component)).
    vm_compute. exact I. }
  split_and!; [exact Hfree|exact Hreach|].
  exact (evaluate_move_space_same_region 2 2 corner_obstacles (0, 0) (1, 1)
           Hfree Hreach).
Defined.

(** ** More on the safety filter *)

Lemma filter_sublist_impl {A} (P Q : A → Prop) `{!∀ x, Decision (P x)}
    `{!∀ x, Decision (Q x)} (l : list A) :
  (∀ x, P x → Q x) → sublist (filter P l) (filter Q l).
Proof.
  intros Himpl. induction l as [|x l IH]; [done|].
  rewrite !filter_cons. destruct (decide (P x)) as [HP|HP].
  - rewrite decide_True by auto. by constructor.
  - destruct (decide (Q x)); [by constructor|done].
Qed.

(** X5: snakes joining the board never make a move safe: with the same
    board size and the same acting snake, the safe moves of the board
    with more snakes are among those of the board with fewer. *)
Theorem get_safe_moves_antitone (body body' : Body) :
  body_you body' = body_you body →
  board_width (body_board body') = board_width (body_board body) →
  board_height (body_board body') = board_height (body_board body) →
  board_snakes (body_board body) ⊆ board_snakes (body_board body') →
  sublist (get_safe_moves body') (get_safe_moves body).
Proof.
  intros Hyou Hw Hh Hsnakes. rewrite !get_safe_moves_filter.
  assert (candidates body' = candidates body) as ->
    by (unfold candidates; by rewrite Hyou).
  apply filter_sublist_impl. intros m. rewrite !kept_spec.
  unfold safe_destination, in_bounds. rewrite Hw, Hh.
  intros (Hin & Hobs & Hrisk). split; [done|split].
  - intros (s & i & p & Hs & Hrest). apply Hobs. exists s, i, p.
    split; [by apply Hsnakes|done].
  - intros (s & Hs & Hrest). apply Hrisk. exists s. rewrite Hyou.
    split; [by apply Hsnakes|done].
Qed.

Lemma get_safe_moves_antitone_witness :
  body_you pocket_hungry = body_you pocket_alone
  ∧ board_width (body_board pocket_hungry)
    = board_width (body_board pocket_alone)
  ∧ board_height (body_board pocket_hungry)
    = board_height (body_board pocket_alone)
  ∧ board_snakes (body_board pocket_alone)
    ⊆ board_snakes (body_board pocket_hungry)
  ∧ sublist (get_safe_moves pocket_hungry) (get_safe_moves pocket_alone).
Proof.
  assert (Hsub : board_snakes (body_board pocket_alone)
                 ⊆ board_snakes (body_board pocket_hungry)).
  { intros s Hs. apply list_elem_of_singleton in Hs as ->. by left. }
  split_and!; [reflexivity|reflexivity|reflexivity|exact Hsub|].
  exact (get_safe_moves_antitone pocket_alone pocket_hungry
           eq_refl eq_refl eq_refl Hsub).
Defined.

(** X6: a snake of three or more segments that is listed on the board
    never gets the move back onto its neck. *)
Theorem get_safe_moves_not_onto_neck (body : Body) (hd neck : Point)
    (rest : list Point) (d : string) :
  body_you body ∈ board_snakes (body_board body) →
  snake_body (body_you body) = hd :: neck :: rest → rest ≠ [] →
  (d, px neck, py neck) ∉ get_safe_moves body.
Proof.
  intros Hyou Hbody Hrest. rewrite get_safe_moves_filter.
  intros [Hkept _]%list_elem_of_filter.
  apply kept_spec in Hkept as (_ & Hobs & _). apply Hobs.
  exists (body_you body), 1%nat, neck. rewrite Hbody.
  split_and!; [done|done| |done].
  destruct rest; [done|]. simpl. lia.
Qed.

Lemma get_safe_moves_not_onto_neck_witness :
  body_you solo ∈ board_snakes (body_board solo)
  ∧ snake_body (body_you solo) = P 5 5 :: P 5 4 :: [P 5 3]
  ∧ [P 5 3] ≠ []
  ∧ ("down", px (P 5 4), py (P 5 4)) ∉ get_safe_moves solo.
Proof.
  assert (Hyou : body_you solo ∈ board_snakes (body_board solo))
    by (by left).
  assert (Hrest : [P 5 3] ≠ []) by discriminate.
  split_and!; [exact Hyou|reflexivity|exact Hrest|].
  exact (get_safe_moves_not_onto_neck solo (P 5 5) (P 5 4) [P 5 3] "down"
           Hyou eq_refl Hrest).
Defined.

(** ** More on the two scans *)

(** X7: [find_nearest_food] returns nothing exactly for an empty food
    list; otherwise it returns a food item of the list that is no
    farther from the head than any other, the first such in the list. *)
Theorem find_nearest_food_nearest (head_x head_y : Z)
    (food_list : list Point) :
  (find_nearest_food head_x head_y food_list = None ↔ food_list = [])
  ∧ ∀ food, find_nearest_food head_x head_y food_list = Some food →
            food ∈ food_list
            ∧ is_first_min (λ p, manhattan (cell_of p) (head_x, head_y))
                           food_list food.
Proof.
  destruct (decide (food_list = [])) as [->|Hne].
  - split; [done|]. intros food. discriminate.
  - destruct (find_nearest_food_spec head_x head_y food_list Hne)
      as (food & Hfood & Hmin).
    rewrite Hfood. split; [by split|].
    intros ? [= <-]. split; [|exact Hmin].
    destruct Hmin as (i & Hi & _). eapply list_elem_of_lookup_2, Hi.
Qed.

(** X8: [get_move_toward_target] returns nothing exactly for an empty
    list of options; otherwise it returns the name of the option whose
    destination is closest to the target, the first such in the list. *)
Theorem get_move_toward_target_closest (head_x head_y target_x target_y : Z)
    (move_options : list ScoredMove) :
  (get_move_toward_target head_x head_y target_x target_y move_options = None
   ↔ move_options = [])
  ∧ ∀ d, get_move_toward_target head_x head_y target_x target_y move_options
         = Some d →
         ∃ m, d = sm_name m
              ∧ is_first_min (λ m, manhattan (target_x, target_y)
                                     (sm_x m, sm_y m))
                             move_options m.
Proof.
  destruct (decide (move_options = [])) as [->|Hne].
  - split; [done|]. intros d. discriminate.
  - destruct (get_move_toward_target_spec head_x head_y target_x target_y
                move_options Hne) as (m & Hm & Hmin).
    rewrite Hm. split; [by split|].
    intros ? [= <-]. by exists m.
Qed.

(** ** More on the move selector *)

Lemma is_first_max_split {A} (f : A → Z) (l : list A) (x : A) :
  is_first_max f l x
  ↔ ∃ l1 l2, l = l1 ++ x :: l2
             ∧ Forall (λ y, f y < f x) l1
             ∧ Forall (λ y, f y ≤ f x) l2.
Proof.
  split.
  - intros (i & Hi & Hmax & Hfirst).
    exists (take i l), (drop (S i) l). split_and!.
    + by rewrite take_drop_middle.
    + apply Forall_lookup. intros j y [Hj Hlt]%lookup_take_Some.
      by apply (Hfirst j).
    + apply Forall_lookup. intros j y Hj. rewrite lookup_drop in Hj.
      by apply (Hmax (S i + j)%nat).
  - intros (l1 & l2 & -> & Hl1 & Hl2). rewrite Forall_forall in Hl1, Hl2.
    exists (length l1). split_and!.
    + by apply list_lookup_middle.
    + intros j y Hj%list_elem_of_lookup_2.
      apply elem_of_app in Hj as [Hj|[->|Hj]%elem_of_cons];
        [apply Hl1 in Hj; lia|lia|by apply Hl2].
    + intros j y Hj Hlt. rewrite lookup_app_l in Hj by done.
      apply list_elem_of_lookup_2 in Hj. by apply Hl1.
Qed.

(** With a candidate of score at least 5, the first greatest score of
    all candidates is the first greatest score of those. *)
Lemma roomy_first_max (ms : list ScoredMove) (c : ScoredMove) :
  roomy ms ≠ [] → is_first_max sm_space ms c →
  is_first_max sm_space (roomy ms) c.
Proof.
  intros Hroomy Hc.
  assert (Hfive : 5 ≤ sm_space c).
  { destruct (roomy ms) as [|r rs] eqn:Hr; [done|].
    assert (Hin : r ∈ roomy ms) by (rewrite Hr; by left).
    apply list_elem_of_filter in Hin as [Hfive Hin].
    apply list_elem_of_lookup in Hin as [j Hj].
    destruct Hc as (i & _ & Hmax & _). specialize (Hmax j r Hj). lia. }
  apply is_first_max_split in Hc as (l1 & l2 & -> & Hl1 & Hl2).
  apply is_first_max_split. unfold roomy.
  exists (filter (λ m, 5 ≤ sm_space m) l1), (filter (λ m, 5 ≤ sm_space m) l2).
  split_and!.
  - by rewrite filter_app, filter_cons_True.
  - rewrite Forall_forall in *. intros y [_ Hy]%list_elem_of_filter.
    by apply Hl1.
  - rewrite Forall_forall in *. intros y [_ Hy]%list_elem_of_filter.
    by apply Hl2.
Qed.

Lemma space_choice_first_max (ms : list ScoredMove) (c : ScoredMove) :
  space_choice ms c → is_first_max sm_space ms c.
Proof.
  intros [[Hroomy Hc]|[_ Hc]]; [|done].
  assert (Hne : ms ≠ []) by (intros ->; by apply Hroomy).
  destruct (py_max_spec sm_space ms Hne) as (c' & _ & Hc').
  pose proof (roomy_first_max ms c' Hroomy Hc') as Hc''.
  by rewrite (is_first_max_unique sm_space (roomy ms) c c' Hc Hc'').
Qed.

(** The candidate the selector returns is a retained one. *)
Lemma choose_best_move_retained (body : Body) :
  get_safe_moves body ≠ [] →
  ∃ ms c,
    scored_moves body = Some ms
    ∧ c ∈ retained ms
    ∧ ∀ draw, choose_best_move draw body = Some (sm_name c).
Proof.
  intros Hsafe.
  destruct (choose_best_move_main body Hsafe)
    as (ms & c & Hms & _ & Hchoose & Hfood & Hspace).
  exists ms, c. split_and!; [done| |done].
  destruct (decide (seeks_food body)) as [Hseek|Hidle].
  - destruct (Hfood Hseek) as (_ & _ & i & Hi & _).
    eapply list_elem_of_lookup_2, Hi.
  - apply retained_space_choice in Hspace; [|done].
    destruct Hspace as (i & Hi & _). eapply list_elem_of_lookup_2, Hi.
Qed.

(** X9: with at least one safe move the selector returns one of the
    moves of the safety filter, whatever the random source draws: its
    destination is on the board, is no obstacle and is no risky
    head-to-head cell. *)
Theorem choose_best_move_returns_safe_move (body : Body) :
  get_safe_moves body ≠ [] →
  ∃ d nx ny,
    (d, nx, ny) ∈ get_safe_moves body
    ∧ safe_destination body (nx, ny)
    ∧ ∀ draw, choose_best_move draw body = Some d.
Proof.
  intros Hsafe.
  destruct (choose_best_move_main body Hsafe)
    as (ms & c & Hms & Hc & Hchoose & _).
  destruct (scored_candidate body ms c Hms Hc) as (_ & _ & Hdest & _).
  destruct (scored_moves_spec body) as (ms' & Hms' & Hfst & _).
  assert (ms' = ms) as -> by congruence.
  exists (sm_name c), (sm_x c), (sm_y c). split_and!; [|done|done].
  rewrite <- Hfst. destruct c as [[[d nx] ny] sp].
  by apply (list_elem_of_fmap_2 fst ms (d, nx, ny, sp)).
Qed.

Lemma choose_best_move_returns_safe_move_witness :
  get_safe_moves pocket_hungry ≠ []
  ∧ ∃ d nx ny,
      (d, nx, ny) ∈ get_safe_moves pocket_hungry
      ∧ safe_destination pocket_hungry (nx, ny)
      ∧ ∀ draw, choose_best_move draw pocket_hungry = Some d.
Proof.
  assert (Hsafe : get_safe_moves pocket_hungry ≠ [])
    by (vm_compute; discriminate).
  split; [exact Hsafe|].
  exact (choose_best_move_returns_safe_move pocket_hungry Hsafe).
Defined.

(** X10: a trap is never preferred to room: if some safe candidate has
    a space score of at least 5, the candidate whose direction the
    selector returns has a score of at least 5, hungry or not. *)
Theorem choose_best_move_avoids_traps (body : Body)
    (ms : list ScoredMove) (s : ScoredMove) :
  scored_moves body = Some ms → s ∈ ms → 5 ≤ sm_space s →
  ∃ c, c ∈ ms ∧ 5 ≤ sm_space c
       ∧ ∀ draw, choose_best_move draw body = Some (sm_name c).
Proof.
  intros Hms Hs Hfive.
  assert (Hsafe : get_safe_moves body ≠ []).
  { destruct (scored_moves_spec body) as (ms' & Hms' & Hfst & _).
    assert (ms' = ms) as -> by congruence.
    rewrite <- Hfst. intros Hnil%fmap_nil_inv. subst.
    by apply elem_of_nil in Hs. }
  destruct (choose_best_move_retained body Hsafe)
    as (ms' & c & Hms' & Hc & Hchoose).
  assert (ms' = ms) as -> by congruence.
  assert (Hroomy : s ∈ roomy ms) by (by apply list_elem_of_filter).
  rewrite retained_roomy in Hc.
  destruct (roomy ms) as [|r rs] eqn:Hr; [by apply elem_of_nil in Hroomy|].
  rewrite <- Hr in Hc. apply list_elem_of_filter in Hc as [Hc5 Hc].
  by exists c.
Qed.

Lemma choose_best_move_avoids_traps_witness :
  scored_moves pocket_hungry = Some [("left", 1, 0, 6); ("right", 3, 0, 50)]
  ∧ ("left", 1, 0, 6) ∈ [("left", 1, 0, 6); ("right", 3, 0, 50)]
  ∧ 5 ≤ sm_space ("left", 1, 0, 6)
  ∧ ∃ c, c ∈ [("left", 1, 0, 6); ("right", 3, 0, 50)]
         ∧ 5 ≤ sm_space c
         ∧ ∀ draw, choose_best_move draw pocket_hungry = Some (sm_name c).
Proof.
  assert (Hms : scored_moves pocket_hungry
                = Some [("left", 1, 0, 6); ("right", 3, 0, 50)])
    by (vm_compute; reflexivity).
  assert (Hin : ("left", 1, 0, 6) ∈ [("left", 1, 0, 6); ("right", 3, 0, 50)])
    by (by left).
  assert (Hfive : 5 ≤ sm_space ("left", 1, 0, 6))
    by (vm_compute; discriminate).
  split_and!; [exact Hms|exact Hin|exact Hfive|].
  exact (choose_best_move_avoids_traps pocket_hungry _ ("left", 1, 0, 6)
           Hms Hin Hfive).
Defined.

(** X11: when the selector does not go for food and has a safe move, it
    returns the first candidate, in the order up, down, left, right,
    with the greatest space score of all safe candidates: keeping only
    the scores of at least 5 never changes this choice. *)
Theorem choose_best_move_greatest_space (body : Body) :
  ¬ seeks_food body → get_safe_moves body ≠ [] →
  ∃ ms c,
    scored_moves body = Some ms
    ∧ is_first_max sm_space ms c
    ∧ ∀ draw, choose_best_move draw body = Some (sm_name c).
Proof.
  intros Hidle Hsafe.
  destruct (choose_best_move_main body Hsafe)
    as (ms & c & Hms & _ & Hchoose & _ & Hspace).
  exists ms, c. split_and!; [done| |done].
  by apply space_choice_first_max, Hspace.
Qed.

Lemma choose_best_move_greatest_space_witness :
  ¬ seeks_food pocket_healthy
  ∧ get_safe_moves pocket_healthy ≠ []
  ∧ ∃ ms c,
      scored_moves pocket_healthy = Some ms
      ∧ is_first_max sm_space ms c
      ∧ ∀ draw, choose_best_move draw pocket_healthy = Some (sm_name c).
Proof.
  assert (Hsafe : get_safe_moves pocket_healthy ≠ [])
    by (vm_compute; discriminate).
  split_and!; [exact pocket_healthy_idle|exact Hsafe|].
  exact (choose_best_move_greatest_space pocket_healthy
           pocket_healthy_idle Hsafe).
Defined.

(** X12: a forced move is taken: when the safety filter returns exactly
    one move, the selector returns its direction, whatever the health,
    the food and the space score are. *)
Theorem choose_best_move_forced (body : Body) (m : SafeMove) :
  get_safe_moves body = [m] →
  ∀ draw, choose_best_move draw body = Some m.1.1.
Proof.
  intros Hone.
  assert (Hsafe : get_safe_moves body ≠ []) by (by rewrite Hone).
  destruct (choose_best_move_main body Hsafe)
    as (ms & c & Hms & Hc & Hchoose & _).
  destruct (scored_moves_spec body) as (ms' & Hms' & Hfst & _).
  assert (ms' = ms) as -> by congruence.
  rewrite Hone in Hfst.
  destruct ms as [|s [|s' ms]]; [done| |done].
  injection Hfst as <-. apply list_elem_of_singleton in Hc as ->.
  exact Hchoose.
Qed.

Lemma choose_best_move_forced_witness :
  get_safe_moves (with_food [P 9 9] corner_snake) = [("up", 0, 1)]
  ∧ ∀ draw, choose_best_move draw (with_food [P 9 9] corner_snake)
            = Some "up".
Proof.
  assert (Hone : get_safe_moves (with_food [P 9 9] corner_snake)
                 = [("up", 0, 1)]) by (vm_compute; reflexivity).
  split; [exact Hone|].
  exact (choose_best_move_forced (with_food [P 9 9] corner_snake)
           ("up", 0, 1) Hone).
Defined.

(** X13: at a health of 30 or more the food on the board has no
    influence: the selector returns the same for any two food lists. *)
Theorem choose_best_move_ignores_food (draw : nat) (body : Body)
    (food : list Point) :
  30 ≤ snake_health (body_you body) →
  choose_best_move draw (with_food food body) = choose_best_move draw body.
Proof.
  intros Hhealth. unfold choose_best_move.
  change (get_safe_moves (with_food food body)) with (get_safe_moves body).
  change (scored_moves (with_food food body)) with (scored_moves body).
  destruct (get_safe_moves body); [done|].
  destruct (scored_moves body) as [ms|]; [|done]. simpl.
  rewrite !food_branch_idle; [done|..]; intros [Hlt _]; simpl in Hlt; lia.
Qed.

Lemma choose_best_move_ignores_food_witness :
  30 ≤ snake_health (body_you pocket_healthy)
  ∧ choose_best_move 0 (with_food [P 9 9; P 5 0] pocket_healthy)
    = choose_best_move 0 pocket_healthy.
Proof.
  assert (Hhealth : 30 ≤ snake_health (body_you pocket_healthy))
    by (vm_compute; discriminate).
  split; [exact Hhealth|].
  exact (choose_best_move_ignores_food 0 pocket_healthy [P 9 9; P 5 0]
           Hhealth).
Defined.

(** ** The handler *)

Lemma choose_best_move_direction (draw : nat) (body : Body) :
  ∃ d, choose_best_move draw body = Some d ∧ d ∈ directions.
Proof.
  destruct (decide (get_safe_moves body = [])) as [Hnil|Hsafe].
  - unfold choose_best_move. rewrite Hnil. apply random_choice_direction.
  - destruct (choose_best_move_main body Hsafe)
      as (ms & c & Hms & Hc & Hchoose & _).
    exists (sm_name c). split; [apply Hchoose|].
    by eapply scored_candidate.
Qed.

Lemma decode_encode_point (p : Point) : decode_point (encode_point p) = Some p.
Proof. by destruct p. Qed.

Lemma decode_encode_points (l : list Point) :
  mapM decode_point (encode_point <$> l) = Some l.
Proof.
  apply mapM_Some. induction l as [|p l IH]; [constructor|].
  rewrite fmap_cons. constructor; [apply decode_encode_point|done].
Qed.

Lemma decode_encode_snake (s : Snake) : decode_snake (encode_snake s) = Some s.
Proof.
  destruct s as [id body [hx hy] health]. unfold decode_snake, encode_snake.
  cbn -[mapM decode_point]. by rewrite decode_encode_points.
Qed.

(** Reading back the JSON value of a snapshot gives the snapshot. *)
Lemma decode_encode_body (b : Body) : decode_body (encode_body b) = Some b.
Proof.
  destruct b as [[w h food snakes] you]. unfold decode_body, encode_body.
  cbn -[mapM decode_point decode_snake encode_snake].
  rewrite decode_encode_points. cbn -[mapM decode_snake encode_snake].
  assert (mapM decode_snake (encode_snake <$> snakes) = Some snakes) as ->.
  { apply mapM_Some. induction snakes as [|s l IH]; [constructor|].
    rewrite fmap_cons. constructor; [apply decode_encode_snake|done]. }
  cbn -[decode_snake encode_snake]. by rewrite decode_encode_snake.
Qed.

Section HandlerRoutes.
Context (json_dumps : pyval → string) (json_loads : string → option pyval)
  (choose_raw : pyval → option string).

Lemma respond_not_not_found (body : pyval) :
  respond json_dumps body ≠ not_found.
Proof. discriminate. Qed.

Lemma move_response_not_not_found (event : pyval) :
  move_response json_dumps json_loads choose_raw event ≠ Some not_found.
Proof.
  unfold move_response.
  destruct (py_get event "body" (PStr "{}")) as [text|]; [|done]. simpl.
  destruct (match text with PStr s => json_loads s | _ => None end)
    as [body|]; [|done]. simpl.
  destruct (choose_raw body); [|done]. simpl. by intros [= ?].
Qed.

Lemma py_eq_str_true (v : pyval) (s : string) :
  py_eq_str v s = true ↔ v = PStr s.
Proof.
  destruct v; simpl; try (split; [done|discriminate]).
  rewrite String.eqb_eq. split; [by intros ->|by intros [= ->]].
Qed.

(** Turns the outcome of a comparison with a string into an equation
    or a disequation. *)
Ltac bool_to_eq H :=
  first [ apply py_eq_str_true in H
        | apply not_true_iff_false in H; rewrite py_eq_str_true in H ].

(** X14: once the path and the method of the event are read, the
    handler answers 404 "Not found" exactly when the path is not "/"
    and the request is not a POST to "/start", "/move" or "/end"; on
    these routes it never answers 404. *)
Theorem lambda_handler_not_found (event path method : pyval) :
  request_path event = Some path →
  request_method event = Some method →
  lambda_handler json_dumps json_loads choose_raw event = Some not_found
  ↔ path ≠ PStr "/"
    ∧ ¬ (method = PStr "POST"
         ∧ (path = PStr "/start" ∨ path = PStr "/move"
            ∨ path = PStr "/end")).
Proof.
  intros Hpath Hmethod. unfold lambda_handler.
  rewrite Hpath, Hmethod. simpl.
  pose proof (py_eq_str_true path "/") as Hroot.
  pose proof (py_eq_str_true path "/start") as Hstart.
  pose proof (py_eq_str_true path "/move") as Hmove.
  pose proof (py_eq_str_true path "/end") as Hend.
  pose proof (py_eq_str_true method "POST") as Hpost.
  pose proof (respond_not_not_found metadata) as Hmeta.
  pose proof (respond_not_not_found (PDict [])) as Hempty.
  pose proof (move_response_not_not_found event) as Hmv.
  destruct (py_eq_str path "/") eqn:Eroot; bool_to_eq Eroot;
    [split; [intros [= ?]; done|intros [? _]; done]|].
  destruct (py_eq_str path "/start") eqn:Estart; bool_to_eq Estart;
    destruct (py_eq_str method "POST") eqn:Epost; bool_to_eq Epost;
    destruct (py_eq_str path "/move") eqn:Emove; bool_to_eq Emove;
    destruct (py_eq_str path "/end") eqn:Eend; bool_to_eq Eend;
    cbn [andb];
    (split;
     [ intros Heq;
       first [ injection Heq as Heq; done
             | by apply Hmv in Heq
             | clear Heq; naive_solver ]
     | intros [_ Hnot]; first [ done | exfalso; apply Hnot; naive_solver ] ]).
Qed.
End HandlerRoutes.

Section HandlerEdges.
Context (json_dumps : pyval → string) (json_loads : string → option pyval)
  (choose_raw : pyval → option string).

Lemma lambda_handler_get (event path : pyval) :
  request_method event = Some (PStr "GET") →
  request_path event = Some path →
  lambda_handler json_dumps json_loads choose_raw event
  = if py_eq_str path "/" then Some (respond json_dumps metadata)
    else Some not_found.
Proof.
  intros Hmethod Hpath. unfold lambda_handler.
  rewrite Hpath, Hmethod. simpl.
  destruct (py_eq_str path "/"); [done|].
  by rewrite !andb_false_r.
Qed.

(** X15: an event without method information (no requestContext, no
    http in it, or no method in that) counts as a GET: the handler
    serves the root path and answers 404 to every other path, /start,
    /move and /end included. *)
Theorem lambda_handler_without_method (d : list (string * pyval))
    (path : pyval) :
  no_method d →
  request_path (PDict d) = Some path →
  lambda_handler json_dumps json_loads choose_raw (PDict d)
  = if py_eq_str path "/" then Some (respond json_dumps metadata)
    else Some not_found.
Proof.
  intros Hno. apply lambda_handler_get.
  unfold request_method, py_get.
  destruct Hno as [Hrc|(rc & Hrc & Hhttp)]; rewrite Hrc; simpl; [done|].
  destruct Hhttp as [Hh|(http & Hh & Hm)]; rewrite Hh; simpl; [done|].
  by rewrite Hm.
Qed.

(** X16: a requestContext that is present but is not an object (null,
    a string, a number, a list) makes the handler raise on every path,
    the root path included. *)
Theorem lambda_handler_bad_request_context (d : list (string * pyval))
    (v : pyval) :
  dict_get d "requestContext" = Some v →
  (∀ d', v ≠ PDict d') →
  lambda_handler json_dumps json_loads choose_raw (PDict d) = None.
Proof.
  intros Hget Hnot. unfold lambda_handler, request_method, py_get.
  rewrite Hget. simpl.
  destruct (request_path (PDict d)); simpl; [|done].
  by destruct v; [..|destruct (Hnot d0)].
Qed.
End HandlerEdges.

Lemma lambda_handler_without_method_witness :
  no_method [("path", PStr "/move"); ("httpMethod", PStr "POST");
             ("requestContext", PDict [("stage", PStr "prod")])]
  ∧ lambda_handler (λ _, "{}") (λ _, None) (λ _, None)
      (PDict [("path", PStr "/move"); ("httpMethod", PStr "POST");
              ("requestContext", PDict [("stage", PStr "prod")])])
    = Some not_found.
Proof.
  assert (Hno : no_method
                  [("path", PStr "/move"); ("httpMethod", PStr "POST");
                   ("requestContext", PDict [("stage", PStr "prod")])]).
  { right. exists [("stage", PStr "prod")]. split; [reflexivity|].
    left. reflexivity. }
  split; [exact Hno|].
  exact (lambda_handler_without_method (λ _, "{}") (λ _, None) (λ _, None)
           _ (PStr "/move") Hno eq_refl).
Defined.

Lemma lambda_handler_bad_request_context_witness :
  dict_get [("rawPath", PStr "/"); ("requestContext", PNone)]
    "requestContext" = Some PNone
  ∧ (∀ d', PNone ≠ PDict d')
  ∧ lambda_handler (λ _, "{}") (λ _, None) (λ _, None)
      (PDict [("rawPath", PStr "/"); ("requestContext", PNone)])
    = None.
Proof.
  assert (Hnot : ∀ d', PNone ≠ PDict d') by discriminate.
  split_and!; [reflexivity|exact Hnot|].
  exact (lambda_handler_bad_request_context (λ _, "{}") (λ _, None)
           (λ _, None) [("rawPath", PStr "/"); ("requestContext", PNone)]
           PNone eq_refl Hnot).
Defined.

Lemma lambda_handler_not_found_witness :
  request_path (PDict [("rawPath", PStr "/end")]) = Some (PStr "/end")
  ∧ request_method (PDict [("rawPath", PStr "/end")]) = Some (PStr "GET")
  ∧ lambda_handler (λ _, "{}") (λ _, None) (λ _, None)
      (PDict [("rawPath", PStr "/end")])
    = Some not_found.
Proof.
  split_and!; [reflexivity|reflexivity|].
  apply (lambda_handler_not_found (λ _, "{}") (λ _, None) (λ _, None)
           (PDict [("rawPath", PStr "/end")]) (PStr "/end") (PStr "GET")
           eq_refl eq_refl).
  split; [discriminate|]. intros [Hpost _]. discriminate Hpost.
Defined.

Section HandlerMove.
Context (json_dumps : pyval → string) (json_loads : string → option pyval)
  (choose_raw : pyval → option string) (draw : nat).

(** On a value that holds a snapshot, [choose_best_move] on the parsed
    body does what the selector does on the snapshot. *)
Hypothesis choose_raw_snapshot :
  ∀ v b, decode_body v = Some b → choose_raw v = choose_best_move draw b.

(** X17: a POST to /move whose body parses to a snapshot is answered
    with status 200 and the JSON text of a move object, whose move is
    the direction the selector returns for the snapshot, one of up,
    down, left, right. *)
Theorem lambda_handler_move (event v : pyval) (text : string) (b : Body) :
  request_path event = Some (PStr "/move") →
  request_method event = Some (PStr "POST") →
  py_get event "body" (PStr "{}") = Some (PStr text) →
  json_loads text = Some v →
  decode_body v = Some b →
  ∃ d, d ∈ directions
       ∧ choose_best_move draw b = Some d
       ∧ lambda_handler json_dumps json_loads choose_raw event
         = Some (respond json_dumps (PDict [("move", PStr d)])).
Proof.
  intros Hpath Hmethod Hbody Hloads Hdecode.
  destruct (choose_best_move_direction draw b) as (d & Hd & Hdir).
  exists d. split_and!; [done|done|].
  unfold lambda_handler, move_response.
  rewrite Hpath, Hmethod. simpl. rewrite Hbody. simpl.
  rewrite Hloads. simpl. by rewrite (choose_raw_snapshot v b Hdecode), Hd.
Qed.
End HandlerMove.

Lemma lambda_handler_move_witness :
  ∃ d, d ∈ directions
       ∧ choose_best_move 0 pocket_hungry = Some d
       ∧ lambda_handler (λ _, "{}") (λ _, Some (encode_body pocket_hungry))
           (λ v, decode_body v ≫= choose_best_move 0)
           (move_event "snapshot")
         = Some (respond (λ _, "{}") (PDict [("move", PStr d)])).
Proof.
  refine (lambda_handler_move (λ _, "{}")
            (λ _, Some (encode_body pocket_hungry))
            (λ v, decode_body v ≫= choose_best_move 0) 0 _
            (move_event "snapshot") (encode_body pocket_hungry) "snapshot"
            pocket_hungry eq_refl eq_refl eq_refl eq_refl
            (decode_encode_body pocket_hungry)).
  intros v b Hdec. by rewrite Hdec.
Defined.

Lemma destination_inj (body : Body) (d d' : string) (c : Cell) :
  destination body d = Some c → destination body d' = Some c → d = d'.
Proof.
  unfold destination. destruct c as [cx cy]. intros Hd Hd'.
  repeat case_decide; subst; try done;
    injection Hd as ? ?; injection Hd' as ? ?; lia.
Qed.

(** X18: a hungry snake takes the food next to it: when the selector
    goes for food and the nearest food lies on the destination of a
    retained candidate, the selector returns the direction of that
    candidate. *)
Theorem choose_best_move_eats_adjacent_food (body : Body)
    (ms : list ScoredMove) (c : ScoredMove) (food : Point) :
  seeks_food body →
  scored_moves body = Some ms →
  c ∈ retained ms →
  find_nearest_food (px (snake_head (body_you body)))
    (py (snake_head (body_you body))) (board_food (body_board body))
  = Some food →
  (sm_x c, sm_y c) = cell_of food →
  ∀ draw, choose_best_move draw body = Some (sm_name c).
Proof.
  intros Hseek Hms Hc Hfind Hat.
  pose proof (elem_of_sublist _ _ _ Hc (retained_sublist ms)) as Hcms.
  assert (Hsafe : get_safe_moves body ≠ []).
  { destruct (scored_moves_spec body) as (ms' & Hms' & Hfst & _).
    assert (ms' = ms) as -> by congruence.
    rewrite <- Hfst. intros Hnil%fmap_nil_inv. subst.
    by apply elem_of_nil in Hcms. }
  destruct (choose_best_move_main body Hsafe)
    as (ms' & c' & Hms' & Hc' & Hchoose & Hfood & _).
  assert (ms' = ms) as -> by congruence.
  destruct (Hfood Hseek) as (food' & Hnear & Hmin).
  assert (food' = food) as ->.
  { destruct Hseek as [_ Hne].
    destruct (find_nearest_food_spec
                (px (snake_head (body_you body)))
                (py (snake_head (body_you body)))
                (board_food (body_board body)) Hne) as (f0 & Hf0 & Hmin0).
    assert (f0 = food) as -> by congruence.
    exact (is_first_min_unique _ _ _ _ Hnear Hmin0). }
  assert (Hsame : (sm_x c', sm_y c') = (sm_x c, sm_y c)).
  { destruct Hmin as (i & _ & Hleast & _).
    apply list_elem_of_lookup in Hc as [j Hj].
    specialize (Hleast j c Hj). rewrite Hat in *.
    unfold manhattan, cell_of in *. simpl in *. f_equal; lia. }
  destruct (scored_candidate body ms c Hms Hcms) as (_ & Hdest & _).
  destruct (scored_candidate body ms c' Hms Hc') as (_ & Hdest' & _).
  rewrite Hsame in Hdest'.
  intros draw. rewrite Hchoose. f_equal.
  exact (destination_inj body _ _ _ Hdest' Hdest).
Qed.

Lemma choose_best_move_eats_adjacent_food_witness :
  seeks_food lunch
  ∧ scored_moves lunch = Some [("left", 1, 0, 6); ("right", 3, 0, 50)]
  ∧ ("left", 1, 0, 6) ∈ retained [("left", 1, 0, 6); ("right", 3, 0, 50)]
  ∧ ∀ draw, choose_best_move draw lunch = Some "left".
Proof.
  assert (Hseek : seeks_food lunch)
    by (split; [vm_compute; reflexivity|discriminate]).
  assert (Hms : scored_moves lunch
                = Some [("left", 1, 0, 6); ("right", 3, 0, 50)])
    by (vm_compute; reflexivity).
  assert (Hin : ("left", 1, 0, 6)
                ∈ retained [("left", 1, 0, 6); ("right", 3, 0, 50)])
    by (by left).
  split_and!; [exact Hseek|exact Hms|exact Hin|].
  exact (choose_best_move_eats_adjacent_food lunch _ ("left", 1, 0, 6)
           (P 1 0) Hseek Hms Hin eq_refl eq_refl).
Defined.

(** The computed component on the sample board. *)
Example flood_component_corner :
  flood_component 2 2 corner_obstacles (0, 0) = corner_component.
Proof. vm_compute. reflexivity. Qed.
